(** * SparseBiasLayer (mlpack/methods/ann/layer/sparse_bias_layer.hpp)

    A shallow embedding of the bias layer of the sparse autoencoder:
    the Armadillo operations the layer calls, the three numeric
    operations [Forward], [Backward] and [Gradient], the layer traits,
    and the object store in which layers are constructed, moved and
    destroyed together with the optimizer each one creates. *)

From Stdlib Require Import QArith.
From stdpp Require Import base option list gmap relations.

(** ** Element types

    The layer is a template over the matrix types; every numeric
    operation it performs on elements is an addition, a division, or the
    conversion [static_cast<eT>(sampleSize)].  The element type is kept
    abstract with exactly these operations (no algebraic law is assumed,
    so the development also covers arithmetic that is not associative). *)

Class ElemType (eT : Type) := {
  e_zero : eT;
  e_add : eT → eT → eT;
  e_div : eT → eT → eT;
  e_of_size : nat → eT
}.

(** Exact rational arithmetic, used to run the model on examples. *)
#[export] Instance Q_ElemType : ElemType Q := {
  e_zero := 0%Q;
  e_add := Qplus;
  e_div := Qdiv;
  e_of_size n := inject_Z (Z.of_nat n)
}.

(** ** Failure

    Armadillo reports a violated size requirement by throwing
    [std::logic_error]; the two requirements the layer can meet are
    recorded with the data of the message. *)

Inductive logic_error :=
  | incompatible_dimensions (r1 c1 r2 c2 : nat)
  | sum_dim_not_0_or_1 (dim : nat).

Inductive result (A : Type) :=
  | Ok (a : A)
  | Throw (e : logic_error).
Arguments Ok {A} a.
Arguments Throw {A} e.

Definition rbind {A B} (r : result A) (k : A → result B) : result B :=
  match r with
  | Ok a => k a
  | Throw e => Throw e
  end.

(** What a call does when the build decides how a violated requirement
    shows: it returns, it raises, or its behaviour is undefined (a read
    outside the memory of a matrix). *)
Inductive outcome (A : Type) :=
  | Returns (a : A)
  | Raises (e : logic_error)
  | Undefined.
Arguments Returns {A} a.
Arguments Raises {A} e.
Arguments Undefined {A}.

(** ** Matrices *)

Module arma.
Section Mat.
Context {eT : Type} `{ElemType eT}.

(** [arma::Mat<eT>]: the two sizes and the column-major memory. *)
Record Mat := mkMat { n_rows : nat; n_cols : nat; mem : list eT }.

(** The class invariant [n_elem = n_rows * n_cols]. *)
Definition wf (m : Mat) : Prop := length (mem m) = n_rows m * n_cols m.

(** [m.at(i, j)] reads [mem[i + j * n_rows]]. *)
Definition at_ (m : Mat) (i j : nat) : option eT :=
  mem m !! (i + j * n_rows m).

(** [m.colptr(j)]: the [n_rows] elements of column [j]. *)
Definition colptr (m : Mat) (j : nat) : list eT :=
  take (n_rows m) (drop (j * n_rows m) (mem m)).

Definition columns (m : Mat) : list (list eT) :=
  colptr m <$> seq 0 (n_cols m).

(** Row [i] read through [at_], left to right; [None] if an entry falls
    outside the memory. *)
Definition row (m : Mat) (i : nat) : option (list eT) :=
  mapM (at_ m i) (seq 0 (n_cols m)).

(** The default constructor [Mat()]: the empty 0x0 matrix. *)
Definition empty : Mat := mkMat 0 0 [].

Definition zeros (r c : nat) : Mat := mkMat r c (replicate (r * c) e_zero).

(** [repmat(A, copies_per_row, copies_per_col)]: every column of [A] is
    stacked [copies_per_row] times, and the resulting block of columns
    is laid out [copies_per_col] times. *)
Definition repmat (A : Mat) (copies_per_row copies_per_col : nat) : Mat :=
  mkMat (n_rows A * copies_per_row) (n_cols A * copies_per_col)
    (concat (replicate copies_per_col
       (concat ((λ c, concat (replicate copies_per_row c)) <$> columns A)))).

(** [A + B]: the sizes are compared first; a difference throws. *)
Definition plus (A B : Mat) : result Mat :=
  if decide (n_rows A = n_rows B ∧ n_cols A = n_cols B)
  then Ok (mkMat (n_rows A) (n_cols A) (zip_with e_add (mem A) (mem B)))
  else Throw (incompatible_dimensions (n_rows A) (n_cols A) (n_rows B) (n_cols B)).

(** [A + B] by build.  The size comparison of [plus] is one of
    Armadillo's argument checks, which are compiled in unless
    [ARMA_NO_DEBUG] is defined.  Without them the result takes the sizes
    of [A] and its element [k] is [A[k] + B[k]] for every [k] below the
    number of elements of [A]; when [B] has fewer elements this reads
    past the end of its memory. *)
Definition plus_build (checks : bool) (A B : Mat) : outcome Mat :=
  if checks then
    match plus A B with
    | Ok m => Returns m
    | Throw e => Raises e
    end
  else if decide (length (mem A) ≤ length (mem B))
  then Returns (mkMat (n_rows A) (n_cols A) (zip_with e_add (mem A) (mem B)))
  else Undefined.

(** [arrayops::accumulate]: two running sums over the elements at even
    and at odd positions, added at the end. *)
Fixpoint accumulate_from (acc1 acc2 : eT) (src : list eT) : eT :=
  match src with
  | x :: y :: rest => accumulate_from (e_add acc1 x) (e_add acc2 y) rest
  | [x] => e_add (e_add acc1 x) acc2
  | [] => e_add acc1 acc2
  end.
Definition accumulate (src : list eT) : eT := accumulate_from e_zero e_zero src.

(** [sum(X, dim)].  For [dim = 0] each column is accumulated; for
    [dim = 1] the output starts as [zeros(n_rows, 1)] and the columns
    are added to it in place ([arrayops::inplace_plus]) one after the
    other. *)
Definition sum (X : Mat) (dim : nat) : result Mat :=
  match dim with
  | 0 => Ok (mkMat 1 (n_cols X) (accumulate <$> columns X))
  | 1 => Ok (mkMat (n_rows X) 1
             (foldl (zip_with e_add) (replicate (n_rows X) e_zero) (columns X)))
  | _ => Throw (sum_dim_not_0_or_1 dim)
  end.

(** [X / k] for a scalar [k]. *)
Definition div_scalar (X : Mat) (k : eT) : Mat :=
  mkMat (n_rows X) (n_cols X) ((λ x, e_div x k) <$> mem X).

(** Shape of a matrix, as a pair. *)
Definition size (m : Mat) : nat * nat := (n_rows m, n_cols m).
End Mat.
Arguments Mat eT : clear implicits.
End arma.

Abbreviation Mat := arma.Mat.

(** ** Layer traits

    [LayerTraits<LayerType>] is a record of compile-time constants; the
    specialisation for the bias layer is given for every choice of the
    four template arguments. *)

Record LayerTraits := {
  IsBinary : bool;
  IsOutputLayer : bool;
  IsBiasLayer : bool;
  IsLSTMLayer : bool;
  IsConnection : bool
}.

Definition LayerTraits_SparseBiasLayer
    (OptimizerType WeightInitRule InputDataType OutputDataType : Type) : LayerTraits :=
  {| IsBinary := false;
     IsOutputLayer := false;
     IsBiasLayer := true;
     IsLSTMLayer := false;
     IsConnection := true |}.

(** ** The layer object *)

(** Addresses of layer objects and of caller-owned matrices, and the
    identities of optimizer objects returned by [new]. *)
Abbreviation addr := nat (only parsing).

Section Layer.
Context {eT : Type} `{ElemType eT}.

Record SparseBiasLayer := mkLayer {
  outSize : nat;
  sampleSize : nat;
  weights : Mat eT;
  delta : Mat eT;
  gradient : Mat eT;
  inputParameter : Mat eT;
  outputParameter : Mat eT;
  optimizer : option addr;          (* [None] is [nullptr] *)
  ownsOptimizer : bool
}.

(** [output = input + arma::repmat(weights, 1, input.n_cols)] *)
Definition Forward (L : SparseBiasLayer) (input : Mat eT) : result (Mat eT) :=
  arma.plus input (arma.repmat (weights L) 1 (arma.n_cols input)).

(** [g = gy]; the first argument is unnamed and of any type. *)
Definition Backward {DataType ErrorType : Type}
    (L : SparseBiasLayer) (_ : DataType) (gy : ErrorType) : ErrorType :=
  gy.

(** [g = arma::sum(d, 1) / static_cast<inputDataType>(sampleSize)] *)
Definition Gradient (L : SparseBiasLayer) (d : Mat eT) : result (Mat eT) :=
  rbind (arma.sum d 1) (λ s, Ok (arma.div_scalar s (e_of_size (sampleSize L)))).

(** The layer invariant of the data model: the weights are a column
    vector with one entry per output unit. *)
Definition weights_conform (L : SparseBiasLayer) : Prop :=
  arma.wf (weights L) ∧ arma.n_rows (weights L) = outSize L ∧ arma.n_cols (weights L) = 1.

(** [Forward] by build: with Armadillo's argument checks
    ([checks = true], where it is [Forward]) or without them
    ([checks = false], [ARMA_NO_DEBUG]). *)
Definition Forward_build (checks : bool) (L : SparseBiasLayer) (input : Mat eT)
    : outcome (Mat eT) :=
  arma.plus_build checks input (arma.repmat (weights L) 1 (arma.n_cols input)).

(** *** Members and references *)

Definition set_outSize (v : nat) (L : SparseBiasLayer) : SparseBiasLayer :=
  mkLayer v (sampleSize L) (weights L) (delta L) (gradient L)
    (inputParameter L) (outputParameter L) (optimizer L) (ownsOptimizer L).
Definition set_sampleSize (v : nat) (L : SparseBiasLayer) : SparseBiasLayer :=
  mkLayer (outSize L) v (weights L) (delta L) (gradient L)
    (inputParameter L) (outputParameter L) (optimizer L) (ownsOptimizer L).
Definition set_weights (v : Mat eT) (L : SparseBiasLayer) : SparseBiasLayer :=
  mkLayer (outSize L) (sampleSize L) v (delta L) (gradient L)
    (inputParameter L) (outputParameter L) (optimizer L) (ownsOptimizer L).
Definition set_delta (v : Mat eT) (L : SparseBiasLayer) : SparseBiasLayer :=
  mkLayer (outSize L) (sampleSize L) (weights L) v (gradient L)
    (inputParameter L) (outputParameter L) (optimizer L) (ownsOptimizer L).
Definition set_gradient (v : Mat eT) (L : SparseBiasLayer) : SparseBiasLayer :=
  mkLayer (outSize L) (sampleSize L) (weights L) (delta L) v
    (inputParameter L) (outputParameter L) (optimizer L) (ownsOptimizer L).
Definition set_inputParameter (v : Mat eT) (L : SparseBiasLayer) : SparseBiasLayer :=
  mkLayer (outSize L) (sampleSize L) (weights L) (delta L) (gradient L)
    v (outputParameter L) (optimizer L) (ownsOptimizer L).
Definition set_outputParameter (v : Mat eT) (L : SparseBiasLayer) : SparseBiasLayer :=
  mkLayer (outSize L) (sampleSize L) (weights L) (delta L) (gradient L)
    (inputParameter L) v (optimizer L) (ownsOptimizer L).
Definition set_optimizer (v : option addr) (L : SparseBiasLayer) : SparseBiasLayer :=
  mkLayer (outSize L) (sampleSize L) (weights L) (delta L) (gradient L)
    (inputParameter L) (outputParameter L) v (ownsOptimizer L).
Definition set_ownsOptimizer (v : bool) (L : SparseBiasLayer) : SparseBiasLayer :=
  mkLayer (outSize L) (sampleSize L) (weights L) (delta L) (gradient L)
    (inputParameter L) (outputParameter L) (optimizer L) v.

(** The five matrix members, which the accessors [Weights()], [Delta()],
    [Gradient()], [InputParameter()] and [OutputParameter()] hand out by
    mutable reference. *)
Inductive member :=
  | m_weights | m_delta | m_gradient | m_inputParameter | m_outputParameter.

Definition get_member (b : member) : SparseBiasLayer → Mat eT :=
  match b with
  | m_weights => weights
  | m_delta => delta
  | m_gradient => gradient
  | m_inputParameter => inputParameter
  | m_outputParameter => outputParameter
  end.

Definition set_member (b : member) : Mat eT → SparseBiasLayer → SparseBiasLayer :=
  match b with
  | m_weights => set_weights
  | m_delta => set_delta
  | m_gradient => set_gradient
  | m_inputParameter => set_inputParameter
  | m_outputParameter => set_outputParameter
  end.

(** A reference to a matrix: a matrix object of the caller, or a member
    of a layer as returned by one of its accessors. *)
Inductive MatRef :=
  | Local (x : addr)
  | Member (this : addr) (b : member).

(** *** The object store *)

Record World := mkWorld {
  layers : gmap addr SparseBiasLayer;   (* the live layer objects *)
  locals : gmap addr (Mat eT);          (* the caller's matrix objects *)
  heap : gmap addr addr;                (* live optimizer ↦ the layer it was built on *)
  released : list addr;                 (* every [delete] of an optimizer, oldest first *)
  next : addr                           (* the object the next [new] returns *)
}.

Definition init : World := mkWorld ∅ ∅ ∅ [] 0.

Definition set_layers (f : gmap addr SparseBiasLayer → gmap addr SparseBiasLayer)
    (w : World) : World :=
  mkWorld (f (layers w)) (locals w) (heap w) (released w) (next w).

Definition modify (a : addr) (f : SparseBiasLayer → SparseBiasLayer) : World → World :=
  set_layers (alter f a).

Definition load (r : MatRef) (w : World) : option (Mat eT) :=
  match r with
  | Local x => locals w !! x
  | Member this b => get_member b <$> layers w !! this
  end.

Definition store (r : MatRef) (m : Mat eT) (w : World) : option World :=
  match r with
  | Local x =>
      _ ← locals w !! x;
      Some (mkWorld (layers w) (<[x := m]> (locals w)) (heap w) (released w) (next w))
  | Member this b =>
      _ ← layers w !! this;
      Some (modify this (set_member b m) w)
  end.

(** *** Construction *)

(** The weight initialisation rule is a template argument; the layer
    calls [weightInitRule.Initialize(weights, outSize, 1)]. *)
Class WeightInitRule := {
  Initialize : Mat eT → nat → nat → Mat eT
}.

(** What the external interface asks of a rule: the buffer comes back
    resized to [rows] x [cols]. *)
Class WeightInitContract (Init : WeightInitRule) := {
  Initialize_wf W rows cols : arma.wf (Initialize W rows cols);
  Initialize_rows W rows cols : arma.n_rows (Initialize W rows cols) = rows;
  Initialize_cols W rows cols : arma.n_cols (Initialize W rows cols) = cols
}.

(** Modelled from the spec: the default rule [ZeroInitialization]
    (init_rules/zero_init.hpp is not among the sources); it resizes the
    buffer to [rows] x [cols] as the interface requires and fills it with
    zeros. *)
Definition ZeroInitialization : WeightInitRule :=
  {| Initialize _ rows cols := arma.zeros rows cols |}.

(** [SparseBiasLayer(outSize, sampleSize, weightInitRule)] run at the
    address [this]: the matrix members are default constructed, a new
    optimizer is built on [*this] and owned, and the body initialises the
    weights. *)
Definition ctor {Init : WeightInitRule} (this : addr) (outSize sampleSize : nat)
    (w : World) : World :=
  let o := next w in
  let L := mkLayer outSize sampleSize arma.empty arma.empty arma.empty
             arma.empty arma.empty (Some o) true in
  mkWorld (<[this := set_weights (Initialize (weights L) outSize 1) L]> (layers w))
          (locals w) (<[o := this]> (heap w)) (released w) (S o).

(** *** Move assignment, statement by statement *)

(** [dst.f = src.g] *)
Definition assign_field {A} (set : A → SparseBiasLayer → SparseBiasLayer)
    (get : SparseBiasLayer → A) (dst src : addr) (w : World) : option World :=
  _ ← layers w !! dst;
  S ← layers w !! src;
  Some (modify dst (set (get S)) w).

(** [dst.f = v] *)
Definition store_field {A} (set : A → SparseBiasLayer → SparseBiasLayer)
    (v : A) (dst : addr) (w : World) : option World :=
  _ ← layers w !! dst;
  Some (modify dst (set v) w).

(** [a.f.swap(b.f)] *)
Definition swap_field (f : member) (a b : addr) (w : World) : option World :=
  X ← layers w !! a;
  Y ← layers w !! b;
  Some (modify b (set_member f (get_member f X))
         (modify a (set_member f (get_member f Y)) w)).

(** [SparseBiasLayer& operator=(SparseBiasLayer&& layer)] on the object
    at [this]; [this] and [layer] may be the same object. *)
Definition move_assign (this layer : addr) (w : World) : option World :=
  w ← assign_field set_optimizer optimizer this layer w;
  w ← assign_field set_ownsOptimizer ownsOptimizer this layer w;
  w ← store_field set_optimizer None layer w;
  w ← store_field set_ownsOptimizer false layer w;
  w ← assign_field set_outSize outSize this layer w;
  w ← assign_field set_sampleSize sampleSize this layer w;
  w ← swap_field m_weights this layer w;
  w ← swap_field m_delta this layer w;
  w ← swap_field m_gradient this layer w;
  w ← swap_field m_inputParameter this layer w;
  swap_field m_outputParameter this layer w.

(** What a move between two distinct objects leaves in the source,
    given the values [A] of the source and [B] of the destination before
    it; the destination is left with [A]. *)
Definition moved_from (A B : SparseBiasLayer) : SparseBiasLayer :=
  mkLayer (outSize A) (sampleSize A) (weights B) (delta B) (gradient B)
    (inputParameter B) (outputParameter B) None false.

(** The members the move constructor leaves uninitialised before it
    assigns: their indeterminate values are a parameter. *)
Record Indeterminate := mkIndeterminate {
  i_outSize : nat;
  i_sampleSize : nat;
  i_optimizer : option addr;
  i_ownsOptimizer : bool
}.

(** [SparseBiasLayer(SparseBiasLayer&& layer)] run at the address [this]:
    default initialisation of the members (empty matrices, indeterminate
    scalars), then [*this = std::move(layer)]. *)
Definition default_initialised (u : Indeterminate) : SparseBiasLayer :=
  mkLayer (i_outSize u) (i_sampleSize u) arma.empty arma.empty arma.empty
    arma.empty arma.empty (i_optimizer u) (i_ownsOptimizer u).

Definition move_ctor (u : Indeterminate) (this layer : addr) (w : World) : option World :=
  _ ← layers w !! layer;
  move_assign this layer (set_layers (<[this := default_initialised u]>) w).

(** *** Destruction *)

(** [delete p]: nothing for [nullptr]; otherwise the object leaves the
    heap and the release is logged. *)
Definition delete_optimizer (p : option addr) (w : World) : World :=
  match p with
  | None => w
  | Some o => mkWorld (layers w) (locals w) (delete o (heap w)) (released w ++ [o]) (next w)
  end.

(** [~SparseBiasLayer()] on the object at [this], which then ceases to
    exist. *)
Definition dtor (this : addr) (w : World) : option World :=
  L ← layers w !! this;
  let w := if ownsOptimizer L then delete_optimizer (optimizer L) w else w in
  Some (set_layers (delete this) w).

(** *** Calls of the numeric operations

    [None] stands for a call through a dangling reference; [Throw] for a
    call that raised and left every object as it was. *)

Definition call_Forward (this : addr) (input output : MatRef) (w : World)
    : option (result World) :=
  L ← layers w !! this;
  x ← load input w;
  match Forward L x with
  | Ok m => Ok <$> store output m w
  | Throw e => Some (Throw e)
  end.

Definition call_Backward (this : addr) (input gy g : MatRef) (w : World)
    : option World :=
  L ← layers w !! this;
  x ← load input w;
  e ← load gy w;
  store g (Backward L x e) w.

Definition call_Gradient (this : addr) (d g : MatRef) (w : World)
    : option (result World) :=
  L ← layers w !! this;
  x ← load d w;
  match Gradient L x with
  | Ok m => Ok <$> store g m w
  | Throw e => Some (Throw e)
  end.

(** *** Programs over the store

    One step is one operation a client can perform on the layers and on
    its own matrices. *)
Inductive step {Init : WeightInitRule} : World → World → Prop :=
  | step_ctor this outSize sampleSize w :
      layers w !! this = None →
      step w (ctor this outSize sampleSize w)
  | step_move_ctor u this layer w w' :
      layers w !! this = None →
      move_ctor u this layer w = Some w' →
      step w w'
  | step_move_assign this layer w w' :
      move_assign this layer w = Some w' →
      step w w'
  | step_dtor this w w' :
      dtor this w = Some w' →
      step w w'
  | step_Forward this input output w w' :
      call_Forward this input output w = Some (Ok w') →
      step w w'
  | step_Backward this input gy g w w' :
      call_Backward this input gy g w = Some w' →
      step w w'
  | step_Gradient this d g w w' :
      call_Gradient this d g w = Some (Ok w') →
      step w w'
  | step_declare x m w :
      step w (mkWorld (layers w) (<[x := m]> (locals w)) (heap w) (released w) (next w))
  | step_store r m w w' :
      store r m w = Some w' →
      step w w'.

Definition reachable {Init : WeightInitRule} (w : World) : Prop := rtc step init w.

(** *** Ownership *)

(** The layer at [a] is an owner of the optimizer [o]. *)
Definition owner (w : World) (o a : addr) : Prop :=
  ∃ L, layers w !! a = Some L ∧ optimizer L = Some o ∧ ownsOptimizer L = true.

(** At most one live layer owns any given optimizer. *)
Definition single_owner (w : World) : Prop :=
  ∀ o a b, owner w o a → owner w o b → a = b.

(** The optimizer pointer and the ownership flag of a layer, and the
    table of them over the live layers. *)
Definition handle (L : SparseBiasLayer) : option addr * bool :=
  (optimizer L, ownsOptimizer L).

Definition handles (w : World) : gmap addr (option addr * bool) :=
  handle <$> layers w.

(** What a destructor releases for a handle: the optimizer of an owning
    layer, if the pointer is not null. *)
Definition owned (h : option addr * bool) : option addr :=
  if snd h then fst h else None.

(** What the ownership properties depend on: the handles of the live
    layers, the releases so far, and the next optimizer to be created. *)
Record View := mkView {
  v_handles : gmap addr (option addr * bool);
  v_released : list addr;
  v_next : addr
}.

Definition view (w : World) : View := mkView (handles w) (released w) (next w).

(** The four ways a step of a program shows in the view: not at all; a
    construction; a move (assignment or construction) from [layer] to
    [this]; a destruction. *)
Inductive vstep : View → View → Prop :=
  | vstep_same v : vstep v v
  | vstep_new hs rel n this :
      hs !! this = None →
      vstep (mkView hs rel n) (mkView (<[this := (Some n, true)]> hs) rel (S n))
  | vstep_move hs rel n this layer h :
      hs !! layer = Some h →
      vstep (mkView hs rel n)
            (mkView (<[layer := (None, false)]> (<[this := h]> hs)) rel n)
  | vstep_destroy hs rel n this h :
      hs !! this = Some h →
      vstep (mkView hs rel n) (mkView (delete this hs) (rel ++ option_list (owned h)) n).

(** The bookkeeping of every layer is sound: a null pointer comes with a
    cleared flag, and a pointer that is set is owned, was returned by
    [new] and has not been released. *)
Definition handles_sound (v : View) : Prop :=
  ∀ a p b, v_handles v !! a = Some (p, b) →
    match p with
    | None => b = false
    | Some o => b = true ∧ o < v_next v ∧ o ∉ v_released v
    end.

(** No two live layers hold the same optimizer. *)
Definition handles_disjoint (v : View) : Prop :=
  ∀ a b o x y,
    v_handles v !! a = Some (Some o, x) → v_handles v !! b = Some (Some o, y) → a = b.

(** The bookkeeping of a whole store is consistent. *)
Definition consistent (v : View) : Prop :=
  handles_sound v ∧ handles_disjoint v ∧ (∀ o, o ∈ v_released v → o < v_next v).

(** The optimizer [o] has been created, no live layer holds it, and it
    has not been released: it is lost. *)
Definition leaked (o : addr) (v : View) : Prop :=
  o < v_next v ∧ (o ∉ v_released v) ∧
  (∀ a b, v_handles v !! a = Some (Some o, b) → False).

(** The layer at [cur] owns the optimizer [o], and every other live
    layer is moved-from: null pointer, cleared flag. *)
Definition sole_owner (o cur : addr) (w : World) : Prop :=
  handles w !! cur = Some (Some o, true) ∧
  ∀ a h, a ≠ cur → handles w !! a = Some h → h = (None, false).

(** *** A layer's life: constructed once, moved along, all destroyed *)

(** Moving the layer at [src] to [dst]: a move construction when nothing
    lives at [dst] yet, a move assignment otherwise. *)
Definition transfer (u : Indeterminate) (dst src : addr) (w : World) : option World :=
  match layers w !! dst with
  | None => move_ctor u dst src w
  | Some _ => move_assign dst src w
  end.

(** The layer at [src] is moved to the first address of [dsts], from
    there to the second, and so on; the result is the address where it
    arrived with the store. *)
Fixpoint transfers (u : Indeterminate) (src : addr) (dsts : list addr) (w : World)
    : option (addr * World) :=
  match dsts with
  | [] => Some (src, w)
  | dst :: dsts => w ← transfer u dst src w; transfers u dst dsts w
  end.

(** No address is moved onto itself along [src :: dsts]. *)
Fixpoint no_self_move (src : addr) (dsts : list addr) : Prop :=
  match dsts with
  | [] => True
  | dst :: dsts => src ≠ dst ∧ no_self_move dst dsts
  end.

Fixpoint destroy_all (order : list addr) (w : World) : option World :=
  match order with
  | [] => Some w
  | a :: order => w ← dtor a w; destroy_all order w
  end.

(** *** The optimizer accessor *)

(** [Optimizer()] returns [*optimizer]: there is a result when the
    pointer is not null and the optimizer it points to is still on the
    heap; [None] stands for the dereference of a null or dangling
    pointer. *)
Definition Optimizer (this : addr) (w : World) : option addr :=
  L ← layers w !! this;
  o ← optimizer L;
  _ ← heap w !! o;
  Some o.

(** The heap holds exactly the optimizers created and not released. *)
Definition heap_tracks (w : World) : Prop :=
  ∀ o, is_Some (heap w !! o) ↔ o < next w ∧ o ∉ released w.

(** The value a move leaves at its source when the destination was
    freshly default-initialised: the sizes stay, the buffers are empty,
    the pointer is null and the flag cleared. *)
Definition emptied (A : SparseBiasLayer) : SparseBiasLayer :=
  mkLayer (outSize A) (sampleSize A) arma.empty arma.empty arma.empty
    arma.empty arma.empty None false.
End Layer.
Arguments SparseBiasLayer eT : clear implicits.
Arguments World eT : clear implicits.
Arguments MatRef : clear implicits.

(** ** Concrete layers and matrices

    Rational matrices and zero-initialised layers on which the model is
    run. *)

Module Ex.
#[local] Existing Instance ZeroInitialization.
#[local] Open Scope Q_scope.

(** A 3-unit layer with weights [1, 2, 3] and [sampleSize = 2]. *)
Definition L3 : SparseBiasLayer Q :=
  mkLayer 3 2 (arma.mkMat 3 1 [1; 2; 3]) arma.empty arma.empty arma.empty arma.empty
    (Some 0%nat) true.

(** The 3x2 zero matrix, the 3x2 matrix of ones, and [[2,4],[2,4],[2,4]]. *)
Definition zero32 : Mat Q := arma.zeros 3 2.
Definition ones32 : Mat Q := arma.mkMat 3 2 [1; 1; 1; 1; 1; 1].
Definition d32 : Mat Q := arma.mkMat 3 2 [2; 2; 2; 4; 4; 4].

(** A 3x1 input. *)
Definition x31 : Mat Q := arma.mkMat 3 1 [5; 6; 7].

(** A 1x1 input. *)
Definition x11 : Mat Q := arma.mkMat 1 1 [5].

(** Two layers are constructed, [A] at address 0 with two units and [B]
    at address 1 with three, both with [sampleSize = 2]. *)
Definition two_layers : World Q := ctor 1 3 2 (ctor 0 2 2 init).

(** The two layers as their constructors leave them. *)
Definition A2 : SparseBiasLayer Q :=
  mkLayer 2 2 (arma.zeros 2 1) arma.empty arma.empty arma.empty arma.empty
    (Some 0%nat) true.
Definition B3 : SparseBiasLayer Q :=
  mkLayer 3 2 (arma.zeros 3 1) arma.empty arma.empty arma.empty arma.empty
    (Some 1%nat) true.

(** Values for the members a move constructor finds uninitialised. *)
Definition junk : Indeterminate := mkIndeterminate 7 7 (Some 9%nat) true.

(** A 3-unit layer at address 0, and two matrices of the caller: the
    error matrix [d32] at 0 and an empty matrix at 1. *)
Definition with_locals : World Q :=
  mkWorld (layers (ctor 0 3 2 init)) (<[1%nat := arma.empty]> {[0%nat := d32]})
    (heap (ctor 0 3 2 init)) [] 1.
End Ex.

(** * Properties *)

(** ** Matrices *)

Section MatFacts.
Context {eT : Type} `{ElemType eT}.
Implicit Types (m d : Mat eT) (i j : nat).

Lemma at_is_Some m i j :
  arma.wf m → i < arma.n_rows m → j < arma.n_cols m → is_Some (arma.at_ m i j).
Proof.
  unfold arma.wf, arma.at_. intros Hwf Hi Hj.
  apply lookup_lt_is_Some. rewrite Hwf. nia.
Qed.

Lemma colptr_lookup m i j :
  i < arma.n_rows m → arma.colptr m j !! i = arma.at_ m i j.
Proof.
  intros Hi. unfold arma.colptr, arma.at_.
  rewrite lookup_take_lt, lookup_drop by done. f_equal. lia.
Qed.

Lemma colptr_length m j :
  arma.wf m → j < arma.n_cols m → length (arma.colptr m j) = arma.n_rows m.
Proof.
  unfold arma.wf, arma.colptr. intros Hwf Hj.
  rewrite length_take, length_drop, Hwf. nia.
Qed.

(** A vector matrix has its memory as its only column. *)
Lemma columns_vector m :
  arma.wf m → arma.n_cols m = 1 → arma.columns m = [arma.mem m].
Proof.
  unfold arma.wf, arma.columns, arma.colptr. intros Hwf Hc. rewrite Hc in *. simpl.
  rewrite drop_0, take_ge by lia. done.
Qed.

Lemma length_concat_replicate (l : list eT) k n :
  length l = n → length (concat (replicate k l)) = k * n.
Proof. intros <-. induction k as [|k IH]; simpl; [done|]. rewrite length_app. lia. Qed.

(** Reading in the [j]-th of [k] copies of a block. *)
Lemma lookup_concat_replicate (l : list eT) k i j :
  i < length l → j < k → concat (replicate k l) !! (i + j * length l) = l !! i.
Proof.
  intros Hi. revert k. induction j as [|j IH]; intros [|k] Hk; try lia; simpl.
  - rewrite Nat.add_0_r. by apply lookup_app_l.
  - rewrite lookup_app_r by lia.
    replace (i + (length l + j * length l) - length l) with (i + j * length l) by lia.
    apply IH. lia.
Qed.

(** Adding columns in place: entry [i] of the accumulator runs through
    the [i]-th entries of the columns from left to right. *)
Lemma inplace_plus_columns (cs : list (list eT)) (xs : list eT) i :
  Forall2 (λ c x, c !! i = Some x) cs xs →
  ∀ (acc : list eT) (a : eT), acc !! i = Some a →
    foldl (zip_with e_add) acc cs !! i = Some (foldl e_add a xs).
Proof.
  induction 1 as [|c x cs xs Hc _ IH]; intros acc a Ha; simpl; [done|].
  apply IH. rewrite lookup_zip_with, Ha, Hc. done.
Qed.

Lemma inplace_plus_length (cs : list (list eT)) n :
  Forall (λ c, length c = n) cs →
  ∀ acc : list eT, length acc = n → length (foldl (zip_with e_add) acc cs) = n.
Proof.
  induction 1 as [|c cs Hc _ IH]; intros acc Ha; simpl; [done|].
  apply IH. rewrite length_zip_with. lia.
Qed.

(** In a well-formed matrix every row can be read in full, and its
    entries are the [i]-th entries of the columns. *)
Lemma row_columns m i :
  arma.wf m → i < arma.n_rows m →
  ∃ xs, arma.row m i = Some xs ∧ Forall2 (λ c x, c !! i = Some x) (arma.columns m) xs.
Proof.
  intros Hwf Hi. unfold arma.row, arma.columns.
  assert (Hall : Forall (λ j, j < arma.n_cols m) (seq 0 (arma.n_cols m))).
  { apply Forall_forall. intros j Hj%elem_of_seq. lia. }
  cut (∃ xs, Forall2 (λ j x, arma.at_ m i j = Some x) (seq 0 (arma.n_cols m)) xs).
  { intros [xs Hxs]. exists xs. split; [by apply mapM_Some_2|].
    apply Forall2_fmap_l. eapply Forall2_impl; [done|].
    intros j x Hx. simpl. by rewrite colptr_lookup. }
  induction Hall as [|j js Hj _ [xs IH]].
  - exists []. constructor.
  - destruct (at_is_Some m i j Hwf Hi Hj) as [x Hx]. exists (x :: xs).
    by constructor.
Qed.
End MatFacts.

(** ** The numeric operations *)

Section Numeric.
Context {eT : Type} `{ElemType eT}.
Implicit Types (L : SparseBiasLayer eT) (input d : Mat eT).

(** C1. [Gradient(d)] of an error matrix with [outSize] rows is an
    [outSize] x 1 column vector whose entry [i] is the sum of row [i] of
    [d], taken from left to right starting at zero, divided by the
    layer's configured [sampleSize] (not by the number of columns of
    [d]). *)
Theorem Gradient_row_mean L d :
  arma.wf d → arma.n_rows d = outSize L →
  ∃ g, Gradient L d = Ok g ∧
    arma.wf g ∧ arma.n_rows g = outSize L ∧ arma.n_cols g = 1 ∧
    ∀ i, i < outSize L →
      ∃ xs, arma.row d i = Some xs ∧ length xs = arma.n_cols d ∧
        arma.at_ g i 0 = Some (e_div (foldl e_add e_zero xs) (e_of_size (sampleSize L))).
Proof.
  intros Hwf Hrows. unfold Gradient. simpl. eexists. split; [done|].
  assert (Hlen : length (foldl (zip_with e_add) (replicate (arma.n_rows d) e_zero)
                          (arma.columns d)) = arma.n_rows d).
  { apply inplace_plus_length; [|by rewrite length_replicate].
    apply Forall_fmap, Forall_forall. intros j Hj%elem_of_seq. simpl.
    apply colptr_length; [done|lia]. }
  repeat split; simpl; try done.
  - unfold arma.wf. simpl. rewrite length_fmap, Hlen. lia.
  - intros i Hi. rewrite <- Hrows in Hi.
    destruct (row_columns d i Hwf Hi) as (xs & Hrow & Hcols).
    exists xs. split; [done|]. split.
    { apply Forall2_length in Hcols. unfold arma.columns in Hcols.
      by rewrite length_fmap, length_seq in Hcols. }
    unfold arma.at_. simpl. rewrite Nat.add_0_r, list_lookup_fmap.
    erewrite inplace_plus_columns; [done|done|].
    by apply lookup_replicate_2.
Qed.

(** C2. For a layer whose weights are the [outSize] x 1 vector and an
    input with [outSize] rows and any number of columns, [Forward]
    returns a matrix of the input's shape whose entry [(i, j)] is the
    input's entry [(i, j)] plus entry [i] of the weights. *)
Theorem Forward_adds_weights L input :
  weights_conform L → arma.wf input → arma.n_rows input = outSize L →
  ∃ output, Forward L input = Ok output ∧
    arma.wf output ∧
    arma.n_rows output = arma.n_rows input ∧ arma.n_cols output = arma.n_cols input ∧
    ∀ i j, i < arma.n_rows input → j < arma.n_cols input →
      ∃ x b, arma.at_ input i j = Some x ∧ arma.at_ (weights L) i 0 = Some b ∧
        arma.at_ output i j = Some (e_add x b).
Proof.
  intros (Hw & Hwr & Hwc) Hin Hrows. unfold Forward, arma.plus, arma.repmat.
  rewrite (columns_vector _ Hw Hwc). simpl. rewrite !app_nil_r, Hwr, Hwc.
  rewrite decide_True by lia.
  assert (Hwl : length (arma.mem (weights L)) = arma.n_rows input).
  { unfold arma.wf in Hw. lia. }
  assert (Hrep : length (concat (replicate (arma.n_cols input) (arma.mem (weights L))))
                 = length (arma.mem input)).
  { rewrite (length_concat_replicate _ _ (arma.n_rows input)); unfold arma.wf in Hin; lia. }
  eexists. split; [done|]. repeat split; simpl; try done.
  - unfold arma.wf. simpl. rewrite length_zip_with, Hrep. unfold arma.wf in Hin. lia.
  - intros i j Hi Hj.
    destruct (at_is_Some input i j Hin Hi Hj) as [x Hx].
    assert (Hb : is_Some (arma.at_ (weights L) i 0)).
    { apply at_is_Some; [done|lia..]. }
    destruct Hb as [b Hb]. exists x, b. repeat split; try done.
    unfold arma.at_ in *. simpl in *. rewrite lookup_zip_with, Hx. simpl.
    rewrite <- Hwl, lookup_concat_replicate by lia.
    rewrite Nat.add_0_r in Hb. by rewrite Hb.
Qed.

(** C3. [Backward(input, gy)] is [gy] itself, whatever [input] is; for a
    matrix error signal the result therefore has the shape of [gy]. *)
Theorem Backward_is_gy {DataType ErrorType : Type} L
    (input input' : DataType) (gy : ErrorType) :
  Backward L input gy = gy ∧
  Backward L input' gy = Backward L input gy ∧
  ∀ (x : DataType) (e : Mat eT), arma.size (Backward L x e) = arma.size e.
Proof. by repeat split. Qed.

End Numeric.

Lemma Gradient_row_mean_witness :
  ∃ g, Gradient Ex.L3 Ex.d32 = Ok g ∧
    arma.wf g ∧ arma.n_rows g = 3 ∧ arma.n_cols g = 1 ∧
    ∀ i, i < 3 →
      ∃ xs, arma.row Ex.d32 i = Some xs ∧ length xs = 2 ∧
        arma.at_ g i 0 = Some (e_div (foldl e_add e_zero xs) (e_of_size 2)).
Proof. apply (Gradient_row_mean Ex.L3 Ex.d32); reflexivity. Defined.

Lemma Forward_adds_weights_witness :
  ∃ output, Forward Ex.L3 Ex.zero32 = Ok output ∧
    arma.wf output ∧
    arma.n_rows output = 3 ∧ arma.n_cols output = 2 ∧
    ∀ i j, i < 3 → j < 2 →
      ∃ x b, arma.at_ Ex.zero32 i j = Some x ∧ arma.at_ (weights Ex.L3) i 0 = Some b ∧
        arma.at_ output i j = Some (e_add x b).
Proof.
  apply (Forward_adds_weights Ex.L3 Ex.zero32); [|reflexivity..].
  repeat split; reflexivity.
Defined.

(** C7. For every instantiation of the layer template the traits are the
    constant record [IsBinary = false], [IsOutputLayer = false],
    [IsBiasLayer = true], [IsLSTMLayer = false], [IsConnection = true];
    they are no part of any object's state, so no operation changes
    them. *)
Theorem LayerTraits_constant (OptimizerType WeightInitRule InputDataType OutputDataType : Type) :
  LayerTraits_SparseBiasLayer OptimizerType WeightInitRule InputDataType OutputDataType =
    {| IsBinary := false; IsOutputLayer := false; IsBiasLayer := true;
       IsLSTMLayer := false; IsConnection := true |}.
Proof. reflexivity. Qed.

(** ** The example scenarios *)

Example scenario_Forward :
  Forward Ex.L3 Ex.zero32 = Ok (arma.mkMat 3 2 [1; 2; 3; 1; 2; 3]%Q).
Proof. reflexivity. Qed.

Example scenario_Backward :
  Backward Ex.L3 Ex.zero32 Ex.ones32 = Ex.ones32.
Proof. reflexivity. Qed.

Example scenario_Gradient :
  ∃ g, Gradient Ex.L3 Ex.d32 = Ok g ∧ arma.size g = (3, 1) ∧
       Qred <$> arma.mem g = [3; 3; 3]%Q.
Proof. eexists. repeat split. Qed.

Example scenario_ShapeMismatch :
  ∃ w L, w = ctor (Init := ZeroInitialization) 0 2 2 init ∧ layers w !! 0 = Some L ∧
    Forward L Ex.x31 = Throw (incompatible_dimensions 3 1 2 1).
Proof. eexists _, _. split; [done|]. split; [reflexivity|]. reflexivity. Qed.

(** ** The object store *)

Section Store.
Context {eT : Type} `{ElemType eT} {Init : @WeightInitRule eT}.
Implicit Types (w : World eT) (A B L : SparseBiasLayer eT) (r : MatRef).

(** *** Moves *)

Lemma move_assign_distinct this layer w A B :
  this ≠ layer → layers w !! this = Some B → layers w !! layer = Some A →
  move_assign this layer w =
    Some (set_layers (λ m, <[layer := moved_from A B]> (<[this := A]> m)) w).
Proof.
  intros Hne Hthis Hlayer. assert (layer ≠ this) by done.
  destruct A as [ao asz aw ad ag ai ap aopt aown], B as [bo bsz bw bd bg bi bp bopt bown].
  unfold move_assign, assign_field, store_field, swap_field, modify, set_layers.
  cbn [layers]. rewrite Hthis, Hlayer. cbn.
  repeat (rewrite ?lookup_alter_eq, ?lookup_alter_ne by done; rewrite ?Hthis, ?Hlayer; cbn).
  do 2 f_equal. apply map_eq. intros k.
  destruct (decide (k = layer)) as [->|]; [|destruct (decide (k = this)) as [->|]].
  - rewrite lookup_insert_eq.
    repeat (rewrite ?lookup_alter_eq, ?lookup_alter_ne by done; cbn).
    by rewrite Hlayer.
  - rewrite lookup_insert_ne, lookup_insert_eq by done.
    repeat (rewrite ?lookup_alter_eq, ?lookup_alter_ne by done; cbn).
    by rewrite Hthis.
  - rewrite !lookup_insert_ne by done. by rewrite !lookup_alter_ne by done.
Qed.

Lemma move_assign_self this w A :
  layers w !! this = Some A →
  move_assign this this w =
    Some (set_layers (<[this := set_ownsOptimizer false (set_optimizer None A)]>) w).
Proof.
  intros Hthis. destruct A as [ao asz aw ad ag ai ap aopt aown].
  unfold move_assign, assign_field, store_field, swap_field, modify, set_layers.
  cbn [layers]. rewrite Hthis. cbn.
  do 10 (rewrite ?lookup_alter_eq; rewrite ?Hthis; cbn).
  do 2 f_equal. apply map_eq. intros k.
  destruct (decide (k = this)) as [->|].
  - rewrite lookup_insert_eq. do 16 (rewrite ?lookup_alter_eq; cbn).
    by rewrite Hthis.
  - rewrite lookup_insert_ne by done. by rewrite !lookup_alter_ne by done.
Qed.

Lemma move_assign_live this layer w w' :
  move_assign this layer w = Some w' →
  is_Some (layers w !! this) ∧ is_Some (layers w !! layer).
Proof.
  unfold move_assign, assign_field. intros Hm.
  destruct (layers w !! this), (layers w !! layer); simpl in *; by eauto.
Qed.

Lemma move_ctor_eq u this layer w A :
  layers w !! this = None → layers w !! layer = Some A →
  move_ctor u this layer w =
    Some (set_layers (λ m,
            <[layer := moved_from A (default_initialised u)]> (<[this := A]> m)) w).
Proof.
  intros Hthis Hlayer. unfold move_ctor. rewrite Hlayer. simpl.
  assert (this ≠ layer) by congruence.
  rewrite (move_assign_distinct this layer _ A (default_initialised u)); [|done|..].
  - unfold set_layers. simpl. by rewrite insert_insert_eq.
  - simpl. apply lookup_insert_eq.
  - simpl. by rewrite lookup_insert_ne.
Qed.

(** *** The view of each operation *)

Lemma handles_lookup w a L :
  layers w !! a = Some L → handles w !! a = Some (handle L).
Proof. intros HL. unfold handles. by rewrite lookup_fmap, HL. Qed.

Lemma handles_lookup_inv w a h :
  handles w !! a = Some h → ∃ L, layers w !! a = Some L ∧ handle L = h.
Proof.
  unfold handles. rewrite lookup_fmap. destruct (layers w !! a) as [L|]; [|done].
  intros [= <-]. by exists L.
Qed.

Lemma ctor_view this outSize sampleSize w :
  layers w !! this = None →
  vstep (view w) (view (ctor this outSize sampleSize w)).
Proof.
  intros Hthis. unfold view, ctor, handles. simpl. rewrite fmap_insert.
  apply vstep_new. by rewrite lookup_fmap, Hthis.
Qed.

Lemma move_assign_view this layer w w' :
  move_assign this layer w = Some w' → vstep (view w) (view w').
Proof.
  intros Hm. destruct (move_assign_live _ _ _ _ Hm) as [[B HB] [A HA]].
  destruct (decide (this = layer)) as [->|Hne].
  - rewrite (move_assign_self _ _ _ HA) in Hm. injection Hm as <-.
    unfold view, handles, set_layers. simpl. rewrite fmap_insert.
    erewrite <- (insert_insert_eq _ layer _ (handle A)).
    apply vstep_move. by rewrite lookup_fmap, HA.
  - rewrite (move_assign_distinct _ _ _ _ _ Hne HB HA) in Hm. injection Hm as <-.
    unfold view, handles, set_layers. simpl. rewrite !fmap_insert.
    apply vstep_move. by rewrite lookup_fmap, HA.
Qed.

Lemma move_ctor_view u this layer w w' :
  layers w !! this = None → move_ctor u this layer w = Some w' →
  vstep (view w) (view w').
Proof.
  intros Hthis Hm. destruct (layers w !! layer) as [A|] eqn:HA.
  - rewrite (move_ctor_eq _ _ _ _ _ Hthis HA) in Hm. injection Hm as <-.
    unfold view, handles, set_layers. simpl. rewrite !fmap_insert.
    apply vstep_move. by rewrite lookup_fmap, HA.
  - unfold move_ctor in Hm. by rewrite HA in Hm.
Qed.

Lemma dtor_view this w w' : dtor this w = Some w' → vstep (view w) (view w').
Proof.
  unfold dtor. destruct (layers w !! this) as [L|] eqn:HL; [|done]. simpl.
  intros [= <-]. pose proof (handles_lookup _ _ _ HL) as Hh.
  unfold view, handles, set_layers in *.
  destruct L as [? ? ? ? ? ? ? p [|]]; simpl in *.
  - destruct p as [o|]; simpl; rewrite fmap_delete.
    + by apply (vstep_destroy _ _ _ _ (Some o, true)).
    + rewrite <- (app_nil_r (released w)) at 2.
      by apply (vstep_destroy _ _ _ _ (None, true)).
  - rewrite fmap_delete. rewrite <- (app_nil_r (released w)) at 2.
    by apply (vstep_destroy _ _ _ _ (p, false)).
Qed.

Lemma handle_set_member b m L : handle (set_member b m L) = handle L.
Proof. by destruct b. Qed.

Lemma store_view r m w w' : store r m w = Some w' → view w' = view w.
Proof.
  destruct r as [x|this b]; simpl.
  - destruct (locals w !! x); [|done]. by intros [= <-].
  - destruct (layers w !! this) as [L|] eqn:HL; [|done]. intros [= <-].
    unfold view, handles, modify, set_layers. simpl. f_equal.
    apply map_eq. intros k. rewrite !lookup_fmap.
    destruct (decide (k = this)) as [->|].
    + rewrite lookup_alter_eq, HL. simpl. by rewrite handle_set_member.
    + by rewrite lookup_alter_ne.
Qed.

Lemma call_Forward_inv this input output w w' :
  call_Forward this input output w = Some (Ok w') →
  ∃ L x v, layers w !! this = Some L ∧ load input w = Some x ∧
    Forward L x = Ok v ∧ store output v w = Some w'.
Proof.
  unfold call_Forward. destruct (layers w !! this) as [L|]; [|done].
  destruct (load input w) as [x|]; [|done]. cbn -[Forward store].
  destruct (Forward L x) as [v|] eqn:HF; [|done].
  destruct (store output v w) as [w1|] eqn:Hs; [|done].
  intros [= <-]. by exists L, x, v.
Qed.

Lemma call_Backward_inv this input gy g w w' :
  call_Backward this input gy g w = Some w' →
  ∃ L x e, layers w !! this = Some L ∧ load input w = Some x ∧
    load gy w = Some e ∧ store g (Backward L x e) w = Some w'.
Proof.
  unfold call_Backward. destruct (layers w !! this) as [L|]; [|done].
  destruct (load input w) as [x|]; [|done].
  destruct (load gy w) as [e|]; [|done]. cbn -[store].
  intros Hs. by exists L, x, e.
Qed.

Lemma call_Gradient_inv this d g w w' :
  call_Gradient this d g w = Some (Ok w') →
  ∃ L x v, layers w !! this = Some L ∧ load d w = Some x ∧
    Gradient L x = Ok v ∧ store g v w = Some w'.
Proof.
  unfold call_Gradient. destruct (layers w !! this) as [L|]; [|done].
  destruct (load d w) as [x|]; [|done]. cbn -[Gradient store].
  destruct (Gradient L x) as [v|] eqn:HG; [|done].
  destruct (store g v w) as [w1|] eqn:Hs; [|done].
  intros [= <-]. by exists L, x, v.
Qed.

Lemma step_view w w' : step w w' → vstep (view w) (view w').
Proof.
  destruct 1 as [this o s w Hf|u this layer w w' Hf Hm|this layer w w' Hm
                |this w w' Hd|this i o w w' Hc|this i gy g w w' Hc
                |this d g w w' Hc|x m w|r m w w' Hs].
  - by apply ctor_view.
  - by eapply move_ctor_view.
  - by eapply move_assign_view.
  - by eapply dtor_view.
  - apply call_Forward_inv in Hc as (? & ? & ? & _ & _ & _ & Hs).
    rewrite (store_view _ _ _ _ Hs). constructor.
  - apply call_Backward_inv in Hc as (? & ? & ? & _ & _ & _ & Hs).
    rewrite (store_view _ _ _ _ Hs). constructor.
  - apply call_Gradient_inv in Hc as (? & ? & ? & _ & _ & _ & Hs).
    rewrite (store_view _ _ _ _ Hs). constructor.
  - constructor.
  - rewrite (store_view _ _ _ _ Hs). constructor.
Qed.

(** *** Invariants of the view *)

Lemma owned_Some h o : owned h = Some o ↔ h = (Some o, true).
Proof. destruct h as [p [|]]; unfold owned; simpl; naive_solver. Qed.

Lemma elem_of_owned (h : option nat * bool) (o : nat) :
  o ∈ option_list (owned h) → h = (Some o, true).
Proof.
  destruct h as [[o'|] [|]]; unfold owned; simpl; try by rewrite elem_of_nil.
  by intros ->%list_elem_of_singleton.
Qed.

Lemma vstep_consistent v v' : vstep v v' → consistent v → consistent v'.
Proof.
  destruct 1 as [v|hs rel n this Hf|hs rel n this layer h Hl|hs rel n this h Hl];
    [done|..]; intros (Hs & Hd & Hr);
    unfold consistent, handles_sound, handles_disjoint in *; simpl in *.
  - split; [|split].
    + intros a p b. rewrite lookup_insert. case_decide as Ha.
      * intros [= <- <-]. split; [done|]. split; [lia|].
        intros Hin%Hr. lia.
      * intros Hp. specialize (Hs _ _ _ Hp). destruct p; [|done].
        destruct Hs as (-> & ? & ?). split; [done|]. split; [lia|done].
    + intros a b o x y. rewrite !lookup_insert.
      repeat case_decide; subst; try done.
      * intros [= <- <-] Hb. apply Hs in Hb. lia.
      * intros Ha [= <- <-]. apply Hs in Ha. lia.
      * apply Hd.
    + intros o Ho%Hr. lia.
  - split; [|split; [|done]].
    + intros a p b. rewrite !lookup_insert.
      repeat case_decide; subst.
      * by intros [= <- <-].
      * intros [= ->]. by apply (Hs layer).
      * apply Hs.
    + intros a b o x y. rewrite !lookup_insert.
      repeat case_decide; subst; try done.
      * intros [= ->] Hb. pose proof (Hd _ _ _ _ _ Hb Hl). congruence.
      * intros Ha [= ->]. pose proof (Hd _ _ _ _ _ Ha Hl). congruence.
      * apply Hd.
  - split; [|split].
    + intros a p b. rewrite lookup_delete. case_decide as Ha; [done|].
      intros Hp. specialize (Hs _ _ _ Hp). destruct p as [o|]; [|done].
      destruct Hs as (-> & Hn & Hrel). split; [done|]. split; [done|].
      rewrite elem_of_app. intros [?|Ho]; [done|].
      apply elem_of_owned in Ho. subst h.
      apply Ha. by eapply Hd.
    + intros a b o x y. rewrite !lookup_delete.
      repeat case_decide; try done. apply Hd.
    + intros o. rewrite elem_of_app. intros [?|Ho]; [by apply Hr|].
      apply elem_of_owned in Ho. subst h.
      by destruct (Hs _ _ _ Hl) as (_ & ? & _).
Qed.

Lemma vstep_leaked o v v' : vstep v v' → leaked o v → leaked o v'.
Proof.
  destruct 1 as [v|hs rel n this Hf|hs rel n this layer h Hl|hs rel n this h Hl];
    [done|..]; intros (Hn & Hr & Hh); unfold leaked in *; simpl in *.
  - split; [lia|]. split; [done|]. intros a b. rewrite lookup_insert.
    case_decide; [|by apply Hh]. intros [= -> _]. lia.
  - split; [done|]. split; [done|]. intros a b. rewrite !lookup_insert.
    repeat case_decide; subst; [done| |by apply Hh].
    intros [= ->]. by eapply Hh.
  - split; [done|]. split.
    + rewrite elem_of_app. intros [?|Ho]; [done|].
      apply elem_of_owned in Ho. subst h. by eapply Hh.
    + intros a b. rewrite lookup_delete. case_decide; [done|]. apply Hh.
Qed.

Lemma init_consistent : consistent (view (@init eT)).
Proof.
  unfold consistent, handles_sound, handles_disjoint, view, handles. simpl.
  rewrite fmap_empty. split; [|split].
  - intros a p b. by rewrite lookup_empty.
  - intros a b o x y. by rewrite lookup_empty.
  - intros o. by rewrite elem_of_nil.
Qed.

Lemma steps_consistent w w' : rtc step w w' → consistent (view w) → consistent (view w').
Proof.
  induction 1 as [|w w1 w2 Hstep _ IH]; [done|].
  intros Hc. apply IH. eapply vstep_consistent; [|done]. by apply step_view.
Qed.

Lemma reachable_consistent w : reachable w → consistent (view w).
Proof. intros Hr. eapply steps_consistent; [done|]. apply init_consistent. Qed.

Lemma steps_leaked o w w' : rtc step w w' → leaked o (view w) → leaked o (view w').
Proof.
  induction 1 as [|w w1 w2 Hstep _ IH]; [done|].
  intros Hl. apply IH. eapply vstep_leaked; [|done]. by apply step_view.
Qed.

Lemma owner_handles w o a : owner w o a ↔ handles w !! a = Some (Some o, true).
Proof.
  unfold owner. split.
  - intros (L & HL & Ho & Hb). rewrite (handles_lookup _ _ _ HL).
    unfold handle. by rewrite Ho, Hb.
  - intros (L & HL & Hh)%handles_lookup_inv. exists L.
    unfold handle in Hh. by injection Hh as -> ->.
Qed.

Lemma consistent_single_owner w : consistent (view w) → single_owner w.
Proof.
  intros (_ & Hd & _) o a b Ha%owner_handles Hb%owner_handles. by eapply Hd.
Qed.
End Store.

(** ** Moving and destroying layers *)

Section Lifecycle.
Context {eT : Type} `{ElemType eT} {Init : @WeightInitRule eT}.
Implicit Types (w : World eT) (A B L : SparseBiasLayer eT) (r : MatRef).

Lemma move_assign_handles this layer w w' :
  move_assign this layer w = Some w' →
  ∃ A, layers w !! layer = Some A ∧
    handles w' = <[layer := (None, false)]> (<[this := handle A]> (handles w)) ∧
    released w' = released w ∧ next w' = next w.
Proof.
  intros Hm. destruct (move_assign_live _ _ _ _ Hm) as [[B HB] [A HA]].
  exists A. split; [done|].
  destruct (decide (this = layer)) as [->|Hne].
  - rewrite (move_assign_self _ _ _ HA) in Hm. injection Hm as <-.
    unfold handles, set_layers. simpl. by rewrite fmap_insert, insert_insert_eq.
  - rewrite (move_assign_distinct _ _ _ _ _ Hne HB HA) in Hm. injection Hm as <-.
    unfold handles, set_layers. simpl. by rewrite !fmap_insert.
Qed.

Lemma move_assign_total this layer w :
  is_Some (layers w !! this) → is_Some (layers w !! layer) →
  is_Some (move_assign this layer w).
Proof.
  intros [B HB] [A HA]. destruct (decide (this = layer)) as [->|Hne].
  - by rewrite (move_assign_self _ _ _ HA).
  - by rewrite (move_assign_distinct _ _ _ _ _ Hne HB HA).
Qed.

Lemma dtor_eq this w L :
  layers w !! this = Some L →
  ∃ w', dtor this w = Some w' ∧ layers w' = delete this (layers w) ∧
    locals w' = locals w ∧ next w' = next w ∧
    released w' = released w ++ option_list (owned (handle L)).
Proof.
  intros HL. unfold dtor. rewrite HL. simpl. eexists. split; [done|].
  destruct L as [? ? ? ? ? ? ? [o|] [|]]; simpl; by rewrite ?app_nil_r.
Qed.

Lemma single_owner_move this layer w A B :
  this ≠ layer → layers w !! layer = Some A → single_owner w →
  single_owner (set_layers (λ m, <[layer := moved_from A B]> (<[this := A]> m)) w).
Proof.
  intros Hne HA Hw o a b.
  assert (Hback : ∀ c, owner (set_layers (λ m, <[layer := moved_from A B]> (<[this := A]> m)) w) o c →
            c ≠ layer ∧ owner w o (if decide (c = this) then layer else c)).
  { intros c (L & HL & Ho & Hb). unfold set_layers in HL. simpl in HL.
    rewrite lookup_insert in HL. case_decide as Hc; [by simplify_eq|].
    split; [done|]. rewrite lookup_insert in HL. case_decide; simplify_eq.
    - rewrite decide_True by done. by exists L.
    - rewrite decide_False by done. by exists L. }
  intros [Ha Ha']%Hback [Hb Hb']%Hback. pose proof (Hw _ _ _ Ha' Hb') as Heq.
  repeat case_decide; congruence.
Qed.

(** C4, as the code has it.  A move assignment of the layer [A] at
    [layer] into a different layer [B] at [this] leaves the destination
    with all of [A]: its optimizer pointer and ownership flag, the
    contents of its five buffers, and its [outSize] and [sampleSize]; the
    source is left with a null pointer and a cleared flag, and its
    buffers hold the former contents of the destination's buffers (they
    are swapped), so they are empty exactly where the destination's
    were.  In a move construction the destination starts with empty
    buffers, and the source ends with empty buffers.  No release happens,
    and the move keeps the property that at most one live layer owns any
    optimizer, which holds in every reachable store. *)
Theorem move_assign_transfers this layer w A B :
  this ≠ layer → layers w !! layer = Some A → layers w !! this = Some B →
  ∃ w' A', move_assign this layer w = Some w' ∧
    layers w' !! this = Some A ∧
    layers w' !! layer = Some A' ∧
    optimizer A' = None ∧ ownsOptimizer A' = false ∧
    (∀ m, get_member m A' = get_member m B) ∧
    released w' = released w ∧
    (single_owner w → single_owner w') ∧
    (reachable w → single_owner w ∧ single_owner w') ∧
    (∀ u fresh, layers w !! fresh = None →
       ∃ w'' A'', move_ctor u fresh layer w = Some w'' ∧
         layers w'' !! fresh = Some A ∧
         layers w'' !! layer = Some A'' ∧
         optimizer A'' = None ∧ ownsOptimizer A'' = false ∧
         ∀ m, get_member m A'' = arma.empty).
Proof.
  intros Hne HA HB. pose proof (move_assign_distinct _ _ _ _ _ Hne HB HA) as Hm.
  eexists _, (moved_from A B). split; [done|].
  assert (Hsingle : single_owner w →
            single_owner (set_layers (λ m, <[layer := moved_from A B]> (<[this := A]> m)) w)).
  { by apply single_owner_move. }
  unfold set_layers at 1 2. simpl.
  split; [by rewrite lookup_insert_ne, lookup_insert_eq|].
  split; [by rewrite lookup_insert_eq|].
  do 2 (split; [done|]). split; [by intros []|]. split; [done|].
  split; [done|]. split.
  - intros Hr. pose proof (consistent_single_owner _ (reachable_consistent _ Hr)). auto.
  - intros u fresh Hf. eexists _, (moved_from A (default_initialised u)).
    split; [by apply move_ctor_eq|]. unfold set_layers. simpl.
    assert (fresh ≠ layer) by congruence.
    split; [by rewrite lookup_insert_ne, lookup_insert_eq|].
    split; [by rewrite lookup_insert_eq|].
    do 2 (split; [done|]). by intros [].
Qed.

(** C8. Move-assigning the layer [A] at [layer] into a different layer
    [B] at [this] exchanges the buffers: afterwards each of the source's
    [Weights], [Delta], [Gradient], [InputParameter] and
    [OutputParameter] holds what the destination's held before, so it is
    not empty where the destination's was not. *)
Theorem move_assign_swaps_buffers this layer w A B :
  this ≠ layer → layers w !! layer = Some A → layers w !! this = Some B →
  ∃ w' A', move_assign this layer w = Some w' ∧
    layers w' !! layer = Some A' ∧
    weights A' = weights B ∧ delta A' = delta B ∧ gradient A' = gradient B ∧
    inputParameter A' = inputParameter B ∧ outputParameter A' = outputParameter B ∧
    (∀ m, get_member m B ≠ arma.empty → get_member m A' ≠ arma.empty).
Proof.
  intros Hne HA HB. eexists _, (moved_from A B).
  split; [by apply move_assign_distinct|].
  unfold set_layers. simpl. split; [by rewrite lookup_insert_eq|].
  do 5 (split; [done|]). by intros [].
Qed.

(** C9. When a layer [B] that owns an optimizer [o] is the destination
    of a move assignment, its pointer and flag are overwritten (with the
    source's, if the source is another layer) and nothing is released;
    afterwards no layer holds [o], and no continuation of the program
    ever releases it. *)
Theorem move_assign_leaks_destination this layer w B o :
  reachable w →
  layers w !! this = Some B → optimizer B = Some o → ownsOptimizer B = true →
  is_Some (layers w !! layer) →
  ∃ w', move_assign this layer w = Some w' ∧
    released w' = released w ∧ (o ∉ released w') ∧
    (∀ a L, layers w' !! a = Some L → optimizer L ≠ Some o) ∧
    (this ≠ layer → ∀ A, layers w !! layer = Some A → layers w' !! this = Some A) ∧
    (∀ w'', rtc step w' w'' → o ∉ released w'').
Proof.
  intros Hr HB Ho Hb Hlive.
  destruct (move_assign_total this layer w) as [w' Hm]; [by eauto|done|].
  exists w'. split; [done|].
  destruct (move_assign_handles _ _ _ _ Hm) as (A & HA & Hh & Hrel & Hnext).
  destruct (reachable_consistent _ Hr) as (Hs & Hd & _).
  pose proof (handles_lookup _ _ _ HB) as HhB. unfold handle in HhB.
  rewrite Ho, Hb in HhB.
  destruct (Hs _ _ _ HhB) as (_ & Hn & Hnr). simpl in Hn, Hnr.
  assert (Hleak : leaked o (view w')).
  { unfold leaked, view. simpl. rewrite Hrel, Hnext, Hh.
    split; [done|]. split; [done|]. intros a b.
    rewrite !lookup_insert. repeat case_decide; subst; [done| |].
    - intros [= Heq _]. pose proof (handles_lookup _ _ _ HA) as HhA.
      unfold handle in HhA. rewrite Heq in HhA. pose proof (Hd _ _ _ _ _ HhA HhB). congruence.
    - intros Ha. pose proof (Hd _ _ _ _ _ Ha HhB). congruence. }
  split; [done|]. split; [by rewrite Hrel|]. split; [|split].
  - intros a L HL Heq. destruct Hleak as (_ & _ & Hno).
    apply (Hno a (ownsOptimizer L)). simpl.
    rewrite (handles_lookup _ _ _ HL). unfold handle. by rewrite Heq.
  - intros Hne A' HA'. rewrite (move_assign_distinct _ _ _ _ _ Hne HB HA') in Hm.
    injection Hm as <-. unfold set_layers. simpl.
    by rewrite lookup_insert_ne, lookup_insert_eq.
  - intros w'' Hsteps. by destruct (steps_leaked _ _ _ Hsteps Hleak) as (_ & ? & _).
Qed.

(** *** One layer, moved along and destroyed *)

Lemma sole_owner_moved o cur dst w A X :
  dst ≠ cur → layers w !! cur = Some A → sole_owner o cur w →
  sole_owner o dst (set_layers (λ m, <[cur := moved_from A X]> (<[dst := A]> m)) w).
Proof.
  intros Hne HA [Hc Hrest]. unfold sole_owner, handles, set_layers in *. simpl.
  rewrite !fmap_insert. rewrite lookup_fmap, HA in Hc. simpl in Hc.
  split.
  - by rewrite lookup_insert_ne, lookup_insert_eq.
  - intros a h Ha. rewrite !lookup_insert. repeat case_decide; subst; try done.
    + by intros [= <-].
    + by apply Hrest.
Qed.

Lemma transfer_sole_owner u o cur dst w :
  dst ≠ cur → sole_owner o cur w →
  ∃ w', transfer u dst cur w = Some w' ∧ sole_owner o dst w' ∧ released w' = released w.
Proof.
  intros Hne Hs. destruct (handles_lookup_inv _ _ _ (proj1 Hs)) as (A & HA & _).
  unfold transfer. destruct (layers w !! dst) as [B|] eqn:HB.
  - rewrite (move_assign_distinct _ _ _ _ _ Hne HB HA). eexists. split; [done|].
    split; [by apply sole_owner_moved|done].
  - rewrite (move_ctor_eq _ _ _ _ _ HB HA). eexists. split; [done|].
    split; [by apply sole_owner_moved|done].
Qed.

Lemma transfers_sole_owner u o dsts : ∀ cur w,
  no_self_move cur dsts → sole_owner o cur w →
  ∃ last w', transfers u cur dsts w = Some (last, w') ∧
    sole_owner o last w' ∧ released w' = released w.
Proof.
  induction dsts as [|dst dsts IH]; intros cur w Hno Hs; simpl.
  - by exists cur, w.
  - destruct Hno as [Hne Hno].
    destruct (transfer_sole_owner u o cur dst w) as (w1 & -> & Hs1 & Hr1); [done..|].
    simpl. destruct (IH dst w1 Hno Hs1) as (last & w' & -> & ? & Hr).
    exists last, w'. split; [done|]. split; [done|]. congruence.
Qed.

(** Destroying distinct live layers releases exactly the optimizers
    they own, in the order of destruction. *)
Lemma destroy_all_released order : ∀ w,
  NoDup order → (∀ a, a ∈ order → is_Some (layers w !! a)) →
  ∃ w', destroy_all order w = Some w' ∧
    released w' = released w ++ omap (λ a, handles w !! a ≫= owned) order ∧
    (∀ a, a ∈ order → layers w' !! a = None) ∧
    (∀ a, a ∉ order → layers w' !! a = layers w !! a).
Proof.
  induction order as [|a order IH]; intros w Hnd Hlive.
  - exists w. split; [done|]. split; [by rewrite app_nil_r|].
    split; [|done]. intros a Ha. by apply elem_of_nil in Ha.
  - apply NoDup_cons in Hnd as [Hnotin Hnd].
    destruct (Hlive a) as [L HL]; [by left|].
    destruct (dtor_eq a w L HL) as (w1 & Hd1 & Hl1 & _ & _ & Hr1).
    assert (Hsame : ∀ b, b ≠ a → layers w1 !! b = layers w !! b).
    { intros b Hb. by rewrite Hl1, lookup_delete_ne. }
    destruct (IH w1 Hnd) as (w' & Hd & Hr & Hin & Hout).
    { intros b Hb. rewrite Hsame; [|by intros ->]. apply Hlive. by right. }
    exists w'. split; [|split; [|split]].
    + cbn [destroy_all]. rewrite Hd1. done.
    + rewrite Hr, Hr1, <- app_assoc. f_equal. cbn [omap list_omap].
      rewrite (handles_lookup _ _ _ HL). cbn [mbind option_bind].
      assert (Hext : omap (λ b, handles w1 !! b ≫= owned) order
                     = omap (λ b, handles w !! b ≫= owned) order).
      { apply list_omap_ext, Forall_Forall2_diag, Forall_forall. intros b Hb.
        unfold handles. rewrite !lookup_fmap, Hsame; [done|]. by intros ->. }
      rewrite Hext. by destruct (owned (handle L)).
    + intros b [->|Hb]%elem_of_cons; [|by apply Hin].
      rewrite Hout by done. by rewrite Hl1, lookup_delete_eq.
    + intros b Hb. rewrite Hout; [apply Hsame|]; intros ?; apply Hb; subst;
        [by left|by right].
Qed.

Lemma omap_single {Y} (f : nat → option Y) (x : nat) (y : Y) (l : list nat) :
  NoDup l → x ∈ l → f x = Some y → (∀ a, a ∈ l → a ≠ x → f a = None) →
  omap f l = [y].
Proof.
  induction l as [|a l IH]; intros Hnd Hin Hx Hrest; [by apply elem_of_nil in Hin|].
  apply NoDup_cons in Hnd as [Hnotin Hnd]. simpl.
  destruct (decide (a = x)) as [->|Hne].
  - rewrite Hx. f_equal.
    clear IH Hin. induction l as [|b l IH]; [done|]. simpl.
    rewrite Hrest; [|by right; left|].
    + apply IH.
      * intros ?. apply Hnotin. by right.
      * by apply NoDup_cons in Hnd as [_ ?].
      * intros c Hc. apply Hrest. apply elem_of_cons in Hc as [->|Hc]; [by left|].
        right. by right.
    + intros ->. apply Hnotin. by left.
  - rewrite Hrest; [|by left|done]. apply IH; [done| |done|].
    + apply elem_of_cons in Hin as [->|?]; done.
    + intros c Hc. apply Hrest. by right.
Qed.

Lemma ctor_sole_owner this outSize sampleSize :
  sole_owner 0 this (ctor this outSize sampleSize init)
  ∧ released (ctor this outSize sampleSize init) = [].
Proof.
  split; [|done]. unfold sole_owner, handles, ctor. simpl.
  rewrite fmap_insert, fmap_empty. split; [by rewrite lookup_insert_eq|].
  intros a h Ha. by rewrite lookup_insert_ne, lookup_empty.
Qed.

(** X15. A layer is constructed in the empty store (which creates the
    optimizer 0 and owns it) and moved along any sequence of addresses,
    by move construction into a fresh address or by move assignment into
    a layer moved from earlier, never onto itself.  Then the layer at the
    last address owns the optimizer, nothing has been released, and
    destroying all live layers, in any order, releases the optimizer
    exactly once.  A destructor releases the optimizer of its layer if
    the layer owns it and releases nothing otherwise; in particular the
    destruction of the source of a move releases nothing. *)
Theorem optimizer_released_exactly_once this outSize sampleSize u dsts :
  no_self_move this dsts →
  (∃ last w1,
     transfers u this dsts (ctor this outSize sampleSize init) = Some (last, w1) ∧
     owner w1 0 last ∧ released w1 = [] ∧
     ∀ order, NoDup order → (∀ a, a ∈ order ↔ is_Some (layers w1 !! a)) →
       ∃ w2, destroy_all order w1 = Some w2 ∧ released w2 = [0] ∧ layers w2 = ∅) ∧
  (∀ w a L, layers w !! a = Some L →
     ∃ w', dtor a w = Some w' ∧
       (ownsOptimizer L = true → ∀ o, optimizer L = Some o →
          released w' = released w ++ [o]) ∧
       (ownsOptimizer L = false → released w' = released w)) ∧
  (∀ w dst src w', move_assign dst src w = Some w' →
     ∃ w'', dtor src w' = Some w'' ∧ released w'' = released w').
Proof.
  intros Hno. split; [|split].
  - destruct (ctor_sole_owner this outSize sampleSize) as [Hs0 Hr0].
    destruct (transfers_sole_owner u 0 dsts this _ Hno Hs0) as (last & w1 & Ht & Hs & Hr).
    exists last, w1. split; [done|]. split; [by apply owner_handles, Hs|].
    split; [congruence|]. intros order Hnd Hcover.
    destruct (destroy_all_released order w1 Hnd) as (w2 & Hd & Hrel & Hin & Hout).
    { intros a Ha. by apply Hcover. }
    exists w2. split; [done|]. split.
    + rewrite Hrel, Hr, Hr0. simpl. destruct Hs as [Hlast Hrest].
      apply (omap_single _ last); [done| | |].
      * apply Hcover. apply handles_lookup_inv in Hlast as (L & -> & _). by eexists.
      * by rewrite Hlast.
      * intros a Ha Hne. destruct (proj1 (Hcover a) Ha) as [L HL].
        rewrite (handles_lookup _ _ _ HL). simpl.
        by rewrite (Hrest a _ Hne (handles_lookup _ _ _ HL)).
    + apply map_eq. intros a. rewrite lookup_empty.
      destruct (decide (a ∈ order)) as [Ha|Ha]; [by apply Hin|].
      rewrite Hout by done. destruct (layers w1 !! a) eqn:HL; [|done].
      destruct Ha. apply Hcover. by eexists.
  - intros w a L HL. destruct (dtor_eq a w L HL) as (w' & Hd & _ & _ & _ & Hr).
    exists w'. split; [done|]. unfold owned, handle in Hr. simpl in Hr. split.
    + intros Hb o Ho. by rewrite Hr, Hb, Ho.
    + intros Hb. by rewrite Hr, Hb, app_nil_r.
  - intros w dst src w' Hm.
    destruct (move_assign_handles _ _ _ _ Hm) as (A & _ & Hh & _ & _).
    assert (Hsrc : handles w' !! src = Some (None, false)).
    { by rewrite Hh, lookup_insert_eq. }
    apply handles_lookup_inv in Hsrc as (L & HL & HhL).
    destruct (dtor_eq src w' L HL) as (w'' & Hd & _ & _ & _ & Hr).
    exists w''. split; [done|]. by rewrite Hr, HhL, app_nil_r.
Qed.

(** *** The numeric operations as calls *)

Lemma store_load r m w w' : store r m w = Some w' → load r w' = Some m.
Proof.
  destruct r as [x|this b]; simpl.
  - destruct (locals w !! x); [|done]. intros [= <-]. simpl. apply lookup_insert_eq.
  - destruct (layers w !! this) as [L|] eqn:HL; [|done]. intros [= <-].
    unfold modify, set_layers. simpl. rewrite lookup_alter_eq, HL. simpl.
    by destruct b.
Qed.

Lemma store_frame r m w w' :
  store r m w = Some w' → ∀ r', r' ≠ r → load r' w' = load r' w.
Proof.
  destruct r as [x|this b]; simpl.
  - destruct (locals w !! x); [|done]. intros [= <-] [y|a c] Hne; simpl; [|done].
    rewrite lookup_insert_ne; [done|]. congruence.
  - destruct (layers w !! this) as [L|] eqn:HL; [|done]. intros [= <-] [y|a c] Hne;
      unfold modify, set_layers; simpl; [done|].
    destruct (decide (a = this)) as [->|].
    + rewrite lookup_alter_eq, HL. simpl. f_equal.
      destruct b, c; try done; by destruct Hne.
    + by rewrite lookup_alter_ne.
Qed.

Lemma store_total r m w : is_Some (load r w) → is_Some (store r m w).
Proof.
  destruct r as [x|this b]; simpl.
  - intros [? ->]. by eexists.
  - destruct (layers w !! this); [by eexists|]. by intros [? ?].
Qed.

Lemma store_layers r m w w' a La :
  store r m w = Some w' → layers w !! a = Some La →
  ∃ La', layers w' !! a = Some La' ∧
    outSize La' = outSize La ∧ sampleSize La' = sampleSize La ∧
    optimizer La' = optimizer La ∧ ownsOptimizer La' = ownsOptimizer La.
Proof.
  destruct r as [x|this b]; simpl.
  - destruct (locals w !! x); [|done]. intros [= <-] HLa. by exists La.
  - destruct (layers w !! this) as [L|] eqn:HL; [|done]. intros [= <-] HLa.
    unfold modify, set_layers. simpl. destruct (decide (a = this)) as [->|].
    + rewrite lookup_alter_eq, HLa. simpl. eexists. split; [done|]. by destruct b.
    + rewrite lookup_alter_ne by done. by exists La.
Qed.

End Lifecycle.

(** ** The theorems on concrete stores *)

Lemma two_layers_at_0 : layers Ex.two_layers !! 0 = Some Ex.A2.
Proof. vm_compute. reflexivity. Qed.

Lemma two_layers_at_1 : layers Ex.two_layers !! 1 = Some Ex.B3.
Proof. vm_compute. reflexivity. Qed.

Lemma two_layers_reachable : reachable (Init := ZeroInitialization) Ex.two_layers.
Proof.
  unfold reachable, Ex.two_layers.
  eapply rtc_l; [apply (step_ctor 0 2 2); vm_compute; reflexivity|].
  eapply rtc_l; [apply (step_ctor 1 3 2); vm_compute; reflexivity|].
  apply rtc_refl.
Qed.

(** C4 as stated fails: after [B = std::move(A)] with [B] a constructed
    3-unit layer, the source [A] holds [B]'s former 3x1 weights, not an
    empty matrix. *)
Lemma move_assign_source_not_emptied :
  ∃ w' A', move_assign 1 0 Ex.two_layers = Some w' ∧
    layers w' !! 0 = Some A' ∧
    weights A' = arma.zeros 3 1 ∧ weights A' ≠ arma.empty.
Proof.
  eexists _, _. split; [vm_compute; reflexivity|].
  split; [vm_compute; reflexivity|]. split; [vm_compute; reflexivity|]. done.
Qed.

Lemma move_assign_transfers_witness :
  ∃ w' A', move_assign 1 0 Ex.two_layers = Some w' ∧
    layers w' !! 1 = Some Ex.A2 ∧
    layers w' !! 0 = Some A' ∧
    optimizer A' = None ∧ ownsOptimizer A' = false ∧
    (∀ m, get_member m A' = get_member m Ex.B3) ∧
    released w' = released Ex.two_layers.
Proof.
  destruct (move_assign_transfers (Init := ZeroInitialization) 1 0 Ex.two_layers Ex.A2 Ex.B3)
    as (w' & A' & H1 & H2 & H3 & H4 & H5 & H6 & H7 & _);
    [lia|vm_compute; reflexivity|vm_compute; reflexivity|].
  exists w', A'. repeat split; assumption.
Defined.

Lemma move_assign_swaps_buffers_witness :
  ∃ w' A', move_assign 1 0 Ex.two_layers = Some w' ∧
    layers w' !! 0 = Some A' ∧
    weights A' = weights Ex.B3 ∧ delta A' = delta Ex.B3 ∧ gradient A' = gradient Ex.B3 ∧
    inputParameter A' = inputParameter Ex.B3 ∧ outputParameter A' = outputParameter Ex.B3 ∧
    (∀ m, get_member m Ex.B3 ≠ arma.empty → get_member m A' ≠ arma.empty).
Proof.
  apply (move_assign_swaps_buffers 1 0 Ex.two_layers Ex.A2 Ex.B3);
    [lia|vm_compute; reflexivity|vm_compute; reflexivity].
Defined.

Lemma move_assign_leaks_destination_witness :
  ∃ w', move_assign 1 0 Ex.two_layers = Some w' ∧
    released w' = released Ex.two_layers ∧ (1 ∉ released w') ∧
    (∀ a L, layers w' !! a = Some L → optimizer L ≠ Some 1) ∧
    (1 ≠ 0 → ∀ A, layers Ex.two_layers !! 0 = Some A → layers w' !! 1 = Some A) ∧
    (∀ w'', rtc (step (Init := ZeroInitialization)) w' w'' → 1 ∉ released w'').
Proof.
  apply (move_assign_leaks_destination (Init := ZeroInitialization) 1 0 Ex.two_layers Ex.B3 1).
  - apply two_layers_reachable.
  - vm_compute; reflexivity.
  - reflexivity.
  - reflexivity.
  - exists Ex.A2. vm_compute; reflexivity.
Defined.

Lemma optimizer_released_exactly_once_witness :
  ∃ last w1,
    transfers Ex.junk 0 [1; 2; 0] (ctor (Init := ZeroInitialization) 0 2 2 init)
      = Some (last, w1) ∧
    owner w1 0 last ∧ released w1 = [] ∧
    ∀ order, NoDup order → (∀ a, a ∈ order ↔ is_Some (layers w1 !! a)) →
      ∃ w2, destroy_all order w1 = Some w2 ∧ released w2 = [0] ∧ layers w2 = ∅.
Proof.
  apply (optimizer_released_exactly_once (Init := ZeroInitialization) 0 2 2 Ex.junk [1; 2; 0]).
  simpl. repeat split; lia.
Defined.


(** On the same store, a call that passes the layer's own
    [Gradient()] buffer as [g] changes that buffer and nothing else. *)
Example Gradient_into_own_buffer :
  ∃ w' L', call_Gradient 0 (Local 0) (Member 0 m_gradient) Ex.with_locals = Some (Ok w') ∧
    layers w' !! 0 = Some L' ∧
    Qred <$> arma.mem (gradient L') = [3; 3; 3]%Q ∧
    weights L' = arma.zeros 3 1 ∧ delta L' = arma.empty.
Proof.
  eexists _, _. split; [vm_compute; reflexivity|].
  split; [vm_compute; reflexivity|]. repeat split; vm_compute; reflexivity.
Qed.

(** Spec scenario: [A] is constructed, [B] is move-constructed from it;
    destroying [A] releases nothing, destroying [B] releases the
    optimizer. *)
Example scenario_move_then_destroy :
  ∃ w1 w2 w3,
    move_ctor Ex.junk 1 0 (ctor (Init := ZeroInitialization) 0 3 2 init) = Some w1 ∧
    dtor 0 w1 = Some w2 ∧ released w2 = [] ∧
    dtor 1 w2 = Some w3 ∧ released w3 = [0] ∧ layers w3 = ∅.
Proof.
  eexists _, _, _. split; [vm_compute; reflexivity|].
  split; [vm_compute; reflexivity|]. split; [vm_compute; reflexivity|].
  split; [vm_compute; reflexivity|]. split; vm_compute; reflexivity.
Qed.

(** * Further properties of the layer *)

Section Construction.
Context {eT : Type} `{ElemType eT} {Init : @WeightInitRule eT}.
Implicit Types (w : World eT) (A B L : SparseBiasLayer eT) (r : MatRef).

(** X1. The constructor, run with an initialisation rule that resizes
    the buffer as asked, leaves at [this] a layer with the given sizes,
    weights that are an [outSize] x 1 vector, the four other buffers
    empty, and a newly created optimizer that it owns and that was built
    on [this]; nothing is released and no other layer changes. *)
Theorem ctor_fresh_layer (C : WeightInitContract Init) this n s w :
  ∃ L, layers (ctor this n s w) !! this = Some L ∧
    outSize L = n ∧ sampleSize L = s ∧ weights_conform L ∧
    delta L = arma.empty ∧ gradient L = arma.empty ∧
    inputParameter L = arma.empty ∧ outputParameter L = arma.empty ∧
    optimizer L = Some (next w) ∧ ownsOptimizer L = true ∧
    heap (ctor this n s w) !! next w = Some this ∧
    next (ctor this n s w) = S (next w) ∧
    released (ctor this n s w) = released w ∧
    (∀ a, a ≠ this → layers (ctor this n s w) !! a = layers w !! a).
Proof.
  unfold ctor. simpl. eexists. split; [apply lookup_insert_eq|]. simpl.
  do 2 (split; [done|]). split.
  { unfold weights_conform. simpl.
    split; [apply Initialize_wf|]. split; [apply Initialize_rows|apply Initialize_cols]. }
  do 6 (split; [done|]). split; [apply lookup_insert_eq|].
  do 2 (split; [done|]). intros a Ha. by rewrite lookup_insert_ne.
Qed.

Lemma move_assign_rest this layer w w' :
  move_assign this layer w = Some w' →
  locals w' = locals w ∧ heap w' = heap w ∧ released w' = released w ∧ next w' = next w.
Proof.
  intros Hm. destruct (move_assign_live _ _ _ _ Hm) as [[B HB] [A HA]].
  destruct (decide (this = layer)) as [->|Hne].
  - rewrite (move_assign_self _ _ _ HA) in Hm. by injection Hm as <-.
  - rewrite (move_assign_distinct _ _ _ _ _ Hne HB HA) in Hm. by injection Hm as <-.
Qed.

(** X2. A move construction from a live layer [A] into a fresh address
    gives the same store whatever the uninitialised members of the new
    object held: the new object is [A], and the source keeps its sizes
    and is left with empty buffers, a null pointer and a cleared flag;
    no other layer, no matrix of the caller, and nothing of the heap or
    of the releases changes. *)
Theorem move_ctor_result u u' this layer w A :
  layers w !! this = None → layers w !! layer = Some A →
  move_ctor u this layer w = move_ctor u' this layer w ∧
  ∃ w', move_ctor u this layer w = Some w' ∧
    layers w' !! this = Some A ∧
    layers w' !! layer = Some (emptied A) ∧
    (∀ a, a ≠ this → a ≠ layer → layers w' !! a = layers w !! a) ∧
    locals w' = locals w ∧ heap w' = heap w ∧
    released w' = released w ∧ next w' = next w.
Proof.
  intros Hthis HA. rewrite !(move_ctor_eq _ _ _ _ _ Hthis HA).
  assert (this ≠ layer) by congruence.
  split; [done|]. eexists. split; [done|]. unfold set_layers. simpl.
  split; [by rewrite lookup_insert_ne, lookup_insert_eq|].
  split; [by rewrite lookup_insert_eq|].
  split; [|done]. intros a ? ?. by rewrite !lookup_insert_ne.
Qed.

(** X3. A layer move-assigned to itself keeps its sizes and its five
    buffers but loses its optimizer: the pointer becomes null and the
    flag is cleared, and nothing is released. *)
Theorem move_assign_self_loses_optimizer this w A :
  layers w !! this = Some A →
  ∃ w' A', move_assign this this w = Some w' ∧
    layers w' !! this = Some A' ∧
    optimizer A' = None ∧ ownsOptimizer A' = false ∧
    outSize A' = outSize A ∧ sampleSize A' = sampleSize A ∧
    (∀ m, get_member m A' = get_member m A) ∧
    (∀ a, a ≠ this → layers w' !! a = layers w !! a) ∧
    heap w' = heap w ∧ released w' = released w.
Proof.
  intros HA. rewrite (move_assign_self _ _ _ HA). eexists _, _. split; [done|].
  unfold set_layers. simpl. split; [apply lookup_insert_eq|]. simpl.
  do 4 (split; [done|]). split; [by intros []|].
  split; [|done]. intros a ?. by rewrite lookup_insert_ne.
Qed.

(** X4. Moving [A] into a different layer [B] and then [B] back into [A]
    restores [A] exactly; [B] has its own buffers back, but it has
    [A]'s sizes, a null pointer and a cleared flag, and nothing was
    released on the way. *)
Theorem move_assign_round_trip this layer w A B :
  this ≠ layer → layers w !! layer = Some A → layers w !! this = Some B →
  ∃ w1 w2 B', move_assign this layer w = Some w1 ∧ move_assign layer this w1 = Some w2 ∧
    layers w2 !! layer = Some A ∧
    layers w2 !! this = Some B' ∧
    (∀ m, get_member m B' = get_member m B) ∧
    outSize B' = outSize A ∧ sampleSize B' = sampleSize A ∧
    optimizer B' = None ∧ ownsOptimizer B' = false ∧
    released w2 = released w.
Proof.
  intros Hne HA HB. rewrite (move_assign_distinct _ _ _ _ _ Hne HB HA).
  eexists _, _, _. split; [done|]. split.
  { apply move_assign_distinct; [done|..]; unfold set_layers; simpl.
    - apply lookup_insert_eq.
    - by rewrite lookup_insert_ne, lookup_insert_eq. }
  unfold set_layers. simpl.
  split; [by rewrite lookup_insert_ne, lookup_insert_eq|].
  split; [apply lookup_insert_eq|]. simpl. split; [by intros []|done].
Qed.

Lemma transfer_carries u cur dst w A :
  dst ≠ cur → layers w !! cur = Some A →
  ∃ w', transfer u dst cur w = Some w' ∧ layers w' !! dst = Some A ∧
    locals w' = locals w ∧ heap w' = heap w ∧
    released w' = released w ∧ next w' = next w.
Proof.
  intros Hne HA. unfold transfer. destruct (layers w !! dst) as [B|] eqn:HB.
  - rewrite (move_assign_distinct _ _ _ _ _ Hne HB HA). eexists. split; [done|].
    unfold set_layers. simpl. by rewrite lookup_insert_ne, lookup_insert_eq.
  - rewrite (move_ctor_eq _ _ _ _ _ HB HA). eexists. split; [done|].
    unfold set_layers. simpl. by rewrite lookup_insert_ne, lookup_insert_eq.
Qed.

Lemma transfers_carry u dsts : ∀ cur w A,
  no_self_move cur dsts → layers w !! cur = Some A →
  ∃ last w', transfers u cur dsts w = Some (last, w') ∧ layers w' !! last = Some A ∧
    locals w' = locals w ∧ heap w' = heap w ∧
    released w' = released w ∧ next w' = next w.
Proof.
  induction dsts as [|dst dsts IH]; intros cur w A Hno HA; simpl.
  - by exists cur, w.
  - destruct Hno as [Hne Hno].
    destruct (transfer_carries u cur dst w A) as (w1 & -> & HA1 & Hl & Hh & Hr & Hn);
      [done..|].
    simpl. destruct (IH dst w1 A Hno HA1) as (last & w' & -> & ? & Hl' & Hh' & Hr' & Hn').
    exists last, w'. repeat split; try done; congruence.
Qed.

(** X5. A layer constructed at [this] and then moved along any sequence
    of addresses (never onto itself) arrives unchanged: the layer at the
    last address is the layer the constructor made, with the same sizes,
    buffers, optimizer and flag.  The heap is not touched by the moves,
    so the optimizer is still the one built on the address [this], also
    when the layer now lives elsewhere. *)
Theorem moved_layer_keeps_value_and_binding u this n s dsts w :
  no_self_move this dsts →
  ∃ L last w1, layers (ctor this n s w) !! this = Some L ∧
    transfers u this dsts (ctor this n s w) = Some (last, w1) ∧
    layers w1 !! last = Some L ∧
    optimizer L = Some (next w) ∧
    heap w1 !! next w = Some this ∧
    released w1 = released w.
Proof.
  intros Hno.
  assert (HL : layers (ctor this n s w) !! this
               = Some (set_weights (Initialize arma.empty n 1)
                         (mkLayer n s arma.empty arma.empty arma.empty arma.empty
                            arma.empty (Some (next w)) true))).
  { unfold ctor. simpl. apply lookup_insert_eq. }
  destruct (transfers_carry u dsts this _ _ Hno HL) as (last & w1 & Ht & Hl & _ & Hh & Hr & _).
  eexists _, last, w1. split; [exact HL|]. split; [done|]. split; [done|].
  split; [done|]. split; [|by rewrite Hr].
  rewrite Hh. unfold ctor. simpl. apply lookup_insert_eq.
Qed.
End Construction.

Section Safety.
Context {eT : Type} `{ElemType eT} {Init : @WeightInitRule eT}.
Implicit Types (w : World eT) (A B L : SparseBiasLayer eT) (r : MatRef).

Lemma vstep_NoDup v v' :
  vstep v v' → consistent v → NoDup (v_released v) → NoDup (v_released v').
Proof.
  destruct 1 as [v|hs rel n this Hf|hs rel n this layer h Hl|hs rel n this h Hl];
    try done. intros (Hs & _ & _) Hnd. simpl in *.
  apply NoDup_app. split; [done|]. split.
  - intros o Ho Hin. apply elem_of_owned in Hin. subst h.
    by destruct (Hs _ _ _ Hl) as (_ & _ & ?).
  - destruct h as [[o|] [|]]; unfold owned; simpl;
      auto using NoDup_nil_2, NoDup_singleton.
Qed.

Lemma steps_NoDup w w' :
  rtc step w w' → consistent (view w) → NoDup (released w) → NoDup (released w').
Proof.
  induction 1 as [|w w1 w2 Hstep _ IH]; [done|]. intros Hc Hnd.
  apply step_view in Hstep. apply IH.
  - by eapply vstep_consistent.
  - by apply (vstep_NoDup _ _ Hstep Hc).
Qed.

Lemma reachable_NoDup w : reachable w → NoDup (released w).
Proof.
  intros Hr. eapply steps_NoDup; [done|apply init_consistent|apply NoDup_nil_2].
Qed.

Lemma store_rest r m w w' :
  store r m w = Some w' →
  heap w' = heap w ∧ released w' = released w ∧ next w' = next w.
Proof.
  destruct r as [x|this b]; simpl.
  - destruct (locals w !! x); [|done]. by intros [= <-].
  - destruct (layers w !! this); [|done]. by intros [= <-].
Qed.

Lemma heap_tracks_same w w' :
  heap w' = heap w → released w' = released w → next w' = next w →
  heap_tracks w → heap_tracks w'.
Proof. unfold heap_tracks. by intros -> -> ->. Qed.

Lemma step_heap_tracks w w' :
  step w w' → consistent (view w) → heap_tracks w → heap_tracks w'.
Proof.
  intros Hstep (Hs & _ & Hr) Ht.
  destruct Hstep as [this o s w Hf|u this layer w w' Hf Hm|this layer w w' Hm
                |this w w' Hd|this i o w w' Hc|this i gy g w w' Hc
                |this d g w w' Hc|x m w|r m w w' Hst].
  - intros o'. unfold ctor. simpl. rewrite lookup_insert. case_decide as Ho.
    + subst o'. split; [|by eauto]. intros _. split; [lia|].
      intros Hin%Hr. simpl in Hin. lia.
    + rewrite (Ht o'). split; intros [? ?]; split; try done; lia.
  - unfold move_ctor in Hm. destruct (layers w !! layer); [|done]. simpl in Hm.
    destruct (move_assign_rest _ _ _ _ Hm) as (_ & ? & ? & ?).
    by apply (heap_tracks_same (set_layers (<[this:=default_initialised u]>) w)).
  - destruct (move_assign_rest _ _ _ _ Hm) as (_ & ? & ? & ?).
    by eapply heap_tracks_same.
  - unfold dtor in Hd. destruct (layers w !! this) as [L|] eqn:HL; [|done].
    simpl in Hd. injection Hd as <-.
    destruct (ownsOptimizer L), (optimizer L) as [o|] eqn:Ho; simpl; try done.
    intros o'. simpl. rewrite lookup_delete, elem_of_app, list_elem_of_singleton.
    case_decide as Hne.
    + subst o'. split; [by intros [? ?]|]. intros [_ Hn]. destruct Hn. by right.
    + rewrite (Ht o'). split; intros [? ?]; split; try done.
      * intros [?|?]; done.
      * intros ?. by auto.
  - apply call_Forward_inv in Hc as (? & ? & ? & _ & _ & _ & Hst).
    destruct (store_rest _ _ _ _ Hst) as (? & ? & ?). by eapply heap_tracks_same.
  - apply call_Backward_inv in Hc as (? & ? & ? & _ & _ & _ & Hst).
    destruct (store_rest _ _ _ _ Hst) as (? & ? & ?). by eapply heap_tracks_same.
  - apply call_Gradient_inv in Hc as (? & ? & ? & _ & _ & _ & Hst).
    destruct (store_rest _ _ _ _ Hst) as (? & ? & ?). by eapply heap_tracks_same.
  - done.
  - destruct (store_rest _ _ _ _ Hst) as (? & ? & ?). by eapply heap_tracks_same.
Qed.

Lemma steps_heap_tracks w w' :
  rtc step w w' → consistent (view w) → heap_tracks w → heap_tracks w'.
Proof.
  induction 1 as [|w w1 w2 Hstep _ IH]; [done|]. intros Hc Ht. apply IH.
  - eapply vstep_consistent; [by apply step_view|done].
  - by eapply step_heap_tracks.
Qed.

Lemma init_heap_tracks : heap_tracks (@init eT).
Proof.
  intros o. simpl. rewrite lookup_empty.
  split; [by intros [? ?]|]. intros [? _]. lia.
Qed.

Lemma reachable_heap_tracks w : reachable w → consistent (view w) ∧ heap_tracks w.
Proof.
  intros Hr. split; [by apply reachable_consistent|].
  eapply steps_heap_tracks; [done|apply init_consistent|apply init_heap_tracks].
Qed.

(** X6. No program releases an optimizer twice: in every store reached
    by constructions, moves, destructions, calls of the numeric
    operations and writes through the accessors, the log of releases has
    no repetition, and no live layer still points to a released
    optimizer. *)
Theorem no_double_release w :
  reachable w →
  NoDup (released w) ∧
  ∀ a L o, layers w !! a = Some L → optimizer L = Some o → o ∉ released w.
Proof.
  intros Hr. split; [by apply reachable_NoDup|].
  intros a L o HL Ho. destruct (reachable_consistent _ Hr) as (Hs & _ & _).
  pose proof (handles_lookup _ _ _ HL) as Hh. unfold handle in Hh. rewrite Ho in Hh.
  by destruct (Hs _ _ _ Hh) as (_ & _ & ?).
Qed.

(** X7. In every reachable store the pointer of a live layer is null
    exactly when its ownership flag is cleared, a pointer that is set
    points to an optimizer still on the heap, and no two layers point to
    the same optimizer.  So [Optimizer()] returns the layer's optimizer
    when the layer owns one, and is the dereference of a null pointer
    exactly on a layer that has been moved from. *)
Theorem Optimizer_defined_iff_owned w a L :
  reachable w → layers w !! a = Some L →
  Optimizer a w = optimizer L ∧
  (is_Some (Optimizer a w) ↔ ownsOptimizer L = true) ∧
  (∀ b L', b ≠ a → layers w !! b = Some L' → is_Some (optimizer L') →
     optimizer L' ≠ optimizer L).
Proof.
  intros Hr HL. destruct (reachable_heap_tracks _ Hr) as [(Hs & Hd & _) Ht].
  pose proof (handles_lookup _ _ _ HL) as Hh. unfold handle in Hh.
  specialize (Hs _ _ _ Hh). unfold Optimizer. rewrite HL. simpl.
  split; [|split].
  - destruct (optimizer L) as [o|]; [|done]. simpl.
    destruct Hs as (_ & Hn & Hnr). simpl in Hn, Hnr.
    destruct (proj2 (Ht o)) as [x ->]; done.
  - destruct (optimizer L) as [o|]; simpl.
    + destruct Hs as (-> & Hn & Hnr). simpl in Hn, Hnr.
      destruct (proj2 (Ht o)) as [x ->]; [done|]. simpl. split; [done|by eauto].
    + rewrite Hs. split; [by intros [? ?]|done].
  - intros b L' Hne HL' [o Ho] Heq.
    pose proof (handles_lookup _ _ _ HL') as Hh'. unfold handle in Hh'.
    rewrite Ho in Hh'. rewrite <- Heq, Ho in Hh. by pose proof (Hd _ _ _ _ _ Hh' Hh).
Qed.
End Safety.

Section Calls.
Context {eT : Type} `{ElemType eT}.
Implicit Types (w : World eT) (A B L : SparseBiasLayer eT) (r : MatRef) (m d : Mat eT).

Lemma length_concat_stack (cs : list (list eT)) n :
  Forall (λ c, length c = n) cs →
  length (concat ((λ c, concat (replicate 1 c)) <$> cs)) = length cs * n.
Proof.
  induction 1 as [|c cs Hc _ IH]; [done|].
  rewrite fmap_cons. cbn [concat]. rewrite length_app, IH.
  cbn [replicate concat length]. rewrite app_nil_r, Hc. lia.
Qed.

Lemma columns_lengths m :
  arma.wf m → Forall (λ c, length c = arma.n_rows m) (arma.columns m).
Proof.
  intros Hwf. apply Forall_fmap, Forall_forall. intros j Hj%elem_of_seq. simpl.
  apply colptr_length; [done|lia].
Qed.

(** X8. Whenever [Forward] returns a result for a well-formed input and
    well-formed weights, the output is a well-formed matrix of the
    input's shape; this needs no relation between the weights and
    [outSize]. *)
Theorem Forward_output_shape L input output :
  arma.wf (weights L) → arma.wf input → Forward L input = Ok output →
  arma.wf output ∧
  arma.n_rows output = arma.n_rows input ∧ arma.n_cols output = arma.n_cols input.
Proof.
  intros Hw Hin. unfold Forward, arma.plus, arma.repmat. simpl.
  case_decide as Hd; [|done]. intros [= <-]. simpl. split; [|done].
  unfold arma.wf in *. simpl. rewrite length_zip_with.
  rewrite (length_concat_replicate _ _ (arma.n_cols (weights L) * arma.n_rows (weights L))).
  - destruct Hd as [Hr Hc]. rewrite Hin. nia.
  - rewrite (length_concat_stack _ (arma.n_rows (weights L))).
    + unfold arma.columns. by rewrite length_fmap, length_seq.
    + by apply columns_lengths.
Qed.

(** X9. [Gradient] never fails and makes no check against [outSize]: for
    every well-formed [d] the result is a well-formed column vector with
    as many rows as [d].  For a [d] without columns every entry is zero
    divided by [sampleSize]. *)
Theorem Gradient_any_rows L d :
  arma.wf d →
  ∃ g, Gradient L d = Ok g ∧ arma.wf g ∧
    arma.n_rows g = arma.n_rows d ∧ arma.n_cols g = 1 ∧
    (arma.n_cols d = 0 →
       arma.mem g = replicate (arma.n_rows d) (e_div e_zero (e_of_size (sampleSize L)))).
Proof.
  intros Hwf. unfold Gradient. simpl. eexists. split; [done|]. simpl.
  split; [|split; [done|split; [done|]]].
  - unfold arma.wf. simpl. rewrite length_fmap.
    rewrite (inplace_plus_length _ (arma.n_rows d)); [lia| |by rewrite length_replicate].
    by apply columns_lengths.
  - intros Hc. unfold arma.columns. rewrite Hc. simpl. by rewrite fmap_replicate.
Qed.


(** X11. A call [Backward(input, gy, g)] on a live layer always returns,
    whatever the shapes of its arguments: afterwards [g] holds the value
    [gy] had, every other matrix reads as before, and the handles, the
    releases and the heap are unchanged.  When [g] and [gy] are the same
    matrix the store does not change at all. *)
Theorem call_Backward_effect this input gy g w L x e :
  layers w !! this = Some L → load input w = Some x → load gy w = Some e →
  is_Some (load g w) →
  ∃ w', call_Backward this input gy g w = Some w' ∧
    load g w' = Some e ∧
    (∀ r, r ≠ g → load r w' = load r w) ∧
    view w' = view w ∧ heap w' = heap w ∧
    (g = gy → w' = w).
Proof.
  intros HL Hx He Hg. unfold call_Backward. rewrite HL, Hx, He. cbn -[store].
  destruct (store_total g e w Hg) as [w' Hs]. exists w'. unfold Backward.
  split; [done|]. split; [by eapply store_load|]. split; [by eapply store_frame|].
  split; [by eapply store_view|]. split; [by destruct (store_rest _ _ _ _ Hs)|].
  intros ->. destruct w as [ls lo hp rel nx]. destruct gy as [y|a b]; simpl in *.
  - rewrite He in Hs. injection Hs as <-. by rewrite insert_id.
  - destruct (ls !! a) as [La|] eqn:HLa; [|done]. injection He as <-.
    injection Hs as <-. unfold modify, set_layers. simpl. f_equal.
    apply map_eq. intros k. destruct (decide (k = a)) as [->|].
    + rewrite lookup_alter_eq, HLa. simpl. f_equal. by destruct La, b.
    + by rewrite lookup_alter_ne.
Qed.

(** X12. Writing a matrix through an accessor of a live layer
    ([Weights()], [Delta()], [Gradient()], [InputParameter()],
    [OutputParameter()]) replaces that buffer, whatever its shape, and
    changes nothing else: reading the same accessor gives the matrix
    back, every other buffer of every layer and every matrix of the
    caller reads as before, and the sizes, the optimizer pointer and the
    ownership flag of the layer stay. *)
Theorem accessor_write this b m w L :
  layers w !! this = Some L →
  ∃ w' L', store (Member this b) m w = Some w' ∧
    load (Member this b) w' = Some m ∧
    (∀ r, r ≠ Member this b → load r w' = load r w) ∧
    layers w' !! this = Some L' ∧
    outSize L' = outSize L ∧ sampleSize L' = sampleSize L ∧
    optimizer L' = optimizer L ∧ ownsOptimizer L' = ownsOptimizer L ∧
    view w' = view w.
Proof.
  intros HL. destruct (store_total (Member this b) m w) as [w' Hs].
  { simpl. rewrite HL. by eexists. }
  destruct (store_layers _ _ _ _ _ _ Hs HL) as (L' & HL' & ? & ? & ? & ?).
  exists w', L'. split; [done|]. split; [by eapply store_load|].
  split; [by eapply store_frame|]. do 5 (split; [done|]). by eapply store_view.
Qed.
End Calls.

(** ** The further properties on concrete stores *)

Lemma ZeroInitialization_contract {eT : Type} `{ElemType eT} :
  WeightInitContract (ZeroInitialization (eT := eT)).
Proof.
  split; intros W rows cols; simpl; [|done..].
  unfold arma.wf. simpl. apply length_replicate.
Qed.

Lemma ctor_fresh_layer_witness :
  ∃ L, layers (ctor (Init := ZeroInitialization) 0 2 2 (@init Q)) !! 0 = Some L ∧
    outSize L = 2 ∧ sampleSize L = 2 ∧ weights_conform L ∧
    optimizer L = Some 0 ∧ ownsOptimizer L = true.
Proof.
  destruct (ctor_fresh_layer (Init := ZeroInitialization) ZeroInitialization_contract
              0 2 2 (@init Q))
    as (L & H1 & H2 & H3 & H4 & _ & _ & _ & _ & H5 & H6 & _).
  exists L. repeat split; try assumption; apply H4.
Defined.

Lemma move_ctor_result_witness :
  move_ctor Ex.junk 2 0 Ex.two_layers
    = move_ctor (mkIndeterminate 0 0 None false) 2 0 Ex.two_layers ∧
  ∃ w', move_ctor Ex.junk 2 0 Ex.two_layers = Some w' ∧
    layers w' !! 2 = Some Ex.A2 ∧
    layers w' !! 0 = Some (emptied Ex.A2).
Proof.
  destruct (move_ctor_result Ex.junk (mkIndeterminate 0 0 None false) 2 0
              Ex.two_layers Ex.A2)
    as (H1 & w' & H2 & H3 & H4 & _); [vm_compute; reflexivity..|].
  split; [exact H1|]. exists w'. repeat split; assumption.
Defined.

Lemma move_assign_self_loses_optimizer_witness :
  ∃ w' A', move_assign 0 0 Ex.two_layers = Some w' ∧
    layers w' !! 0 = Some A' ∧
    optimizer A' = None ∧ ownsOptimizer A' = false ∧
    weights A' = weights Ex.A2 ∧ released w' = released Ex.two_layers.
Proof.
  destruct (move_assign_self_loses_optimizer 0 Ex.two_layers Ex.A2)
    as (w' & A' & H1 & H2 & H3 & H4 & _ & _ & H5 & _ & _ & H6);
    [vm_compute; reflexivity|].
  exists w', A'. repeat split; try assumption. apply (H5 m_weights).
Defined.

Lemma move_assign_round_trip_witness :
  ∃ w1 w2 B', move_assign 1 0 Ex.two_layers = Some w1 ∧ move_assign 0 1 w1 = Some w2 ∧
    layers w2 !! 0 = Some Ex.A2 ∧
    layers w2 !! 1 = Some B' ∧
    weights B' = weights Ex.B3 ∧ outSize B' = 2 ∧ optimizer B' = None.
Proof.
  destruct (move_assign_round_trip 1 0 Ex.two_layers Ex.A2 Ex.B3)
    as (w1 & w2 & B' & H1 & H2 & H3 & H4 & H5 & H6 & _ & H7 & _);
    [lia|vm_compute; reflexivity|vm_compute; reflexivity|].
  exists w1, w2, B'. repeat split; try assumption. apply (H5 m_weights).
Defined.

Lemma moved_layer_keeps_value_and_binding_witness :
  ∃ L last w1,
    layers (ctor (Init := ZeroInitialization) 0 2 2 (@init Q)) !! 0 = Some L ∧
    transfers Ex.junk 0 [1; 2; 0; 3] (ctor (Init := ZeroInitialization) 0 2 2 init)
      = Some (last, w1) ∧
    layers w1 !! last = Some L ∧
    optimizer L = Some 0 ∧
    heap w1 !! 0 = Some 0 ∧
    released w1 = [].
Proof.
  apply (moved_layer_keeps_value_and_binding (Init := ZeroInitialization)
           Ex.junk 0 2 2 [1; 2; 0; 3] (@init Q)).
  simpl. repeat split; lia.
Defined.

Lemma no_double_release_witness :
  NoDup (released Ex.two_layers) ∧
  ∀ a L o, layers Ex.two_layers !! a = Some L → optimizer L = Some o →
    o ∉ released Ex.two_layers.
Proof.
  apply (no_double_release (Init := ZeroInitialization) Ex.two_layers).
  apply two_layers_reachable.
Defined.

Lemma Optimizer_defined_iff_owned_witness :
  Optimizer 0 Ex.two_layers = Some 0 ∧
  (is_Some (Optimizer 0 Ex.two_layers) ↔ true = true).
Proof.
  destruct (Optimizer_defined_iff_owned (Init := ZeroInitialization) Ex.two_layers 0 Ex.A2)
    as (H1 & H2 & _); [apply two_layers_reachable|vm_compute; reflexivity|].
  split; [exact H1|exact H2].
Defined.

Lemma Forward_output_shape_witness :
  arma.wf (arma.mkMat 3 2 [1; 2; 3; 1; 2; 3]%Q) ∧
  arma.n_rows (arma.mkMat 3 2 [1; 2; 3; 1; 2; 3]%Q) = 3 ∧
  arma.n_cols (arma.mkMat 3 2 [1; 2; 3; 1; 2; 3]%Q) = 2.
Proof.
  apply (Forward_output_shape Ex.L3 Ex.zero32); reflexivity.
Defined.

Lemma Gradient_any_rows_witness :
  ∃ g, Gradient Ex.L3 (arma.mkMat 2 0 []) = Ok g ∧ arma.wf g ∧
    arma.n_rows g = 2 ∧ arma.n_cols g = 1 ∧
    (0 = 0 → arma.mem g = replicate 2 (e_div e_zero (e_of_size 2))).
Proof. apply (Gradient_any_rows Ex.L3 (arma.mkMat 2 0 [])). reflexivity. Defined.


Lemma call_Backward_effect_witness :
  ∃ w', call_Backward 0 (Local 1) (Local 0) (Member 0 m_delta) Ex.with_locals = Some w' ∧
    load (Member 0 m_delta) w' = Some Ex.d32 ∧
    view w' = view Ex.with_locals.
Proof.
  destruct (call_Backward_effect 0 (Local 1) (Local 0) (Member 0 m_delta) Ex.with_locals
              (mkLayer 3 2 (arma.zeros 3 1) arma.empty arma.empty arma.empty arma.empty
                 (Some 0) true) arma.empty Ex.d32)
    as (w' & H1 & H2 & _ & H3 & _);
    [vm_compute; reflexivity|vm_compute; reflexivity|vm_compute; reflexivity|
     exists arma.empty; vm_compute; reflexivity|].
  exists w'. repeat split; assumption.
Defined.

Lemma accessor_write_witness :
  ∃ w' L', store (Member 0 m_weights) Ex.x31 Ex.two_layers = Some w' ∧
    load (Member 0 m_weights) w' = Some Ex.x31 ∧
    layers w' !! 0 = Some L' ∧ outSize L' = 2 ∧ optimizer L' = Some 0.
Proof.
  destruct (accessor_write 0 m_weights Ex.x31 Ex.two_layers Ex.A2)
    as (w' & L' & H1 & H2 & _ & H3 & H4 & _ & H5 & _); [vm_compute; reflexivity|].
  exists w', L'. repeat split; assumption.
Defined.

Section Leaks.
Context {eT : Type} `{ElemType eT} {Init : @WeightInitRule eT}.
Implicit Types (w : World eT) (A B L : SparseBiasLayer eT).

Lemma overwritten_leaked this layer w w' B o :
  consistent (view w) → layers w !! this = Some B → optimizer B = Some o →
  move_assign this layer w = Some w' → leaked o (view w').
Proof.
  intros (Hs & Hd & _) HB Ho Hm.
  destruct (move_assign_handles _ _ _ _ Hm) as (A & HA & Hh & Hrel & Hnext).
  pose proof (handles_lookup _ _ _ HB) as HhB. unfold handle in HhB. rewrite Ho in HhB.
  destruct (Hs _ _ _ HhB) as (_ & Hn & Hnr). simpl in Hn, Hnr.
  unfold leaked, view. simpl. rewrite Hrel, Hnext, Hh.
  split; [done|]. split; [done|]. intros a b.
  rewrite !lookup_insert. repeat case_decide; subst; [done| |].
  - intros [= Heq _]. pose proof (handles_lookup _ _ _ HA) as HhA.
    unfold handle in HhA. rewrite Heq in HhA.
    pose proof (Hd _ _ _ _ _ HhA HhB). congruence.
  - intros Ha. pose proof (Hd _ _ _ _ _ Ha HhB). congruence.
Qed.

(** X13. The optimizer a layer held when it became the destination of a
    move assignment (from another layer or from itself) is never
    deleted: in every later store of the program it is still on the
    heap, and no live layer points to it. *)
Theorem overwritten_optimizer_stays_allocated this layer w w' B o :
  reachable w → layers w !! this = Some B → optimizer B = Some o →
  move_assign this layer w = Some w' →
  ∀ w'', rtc step w' w'' →
    is_Some (heap w'' !! o) ∧
    ∀ a L, layers w'' !! a = Some L → optimizer L ≠ Some o.
Proof.
  intros Hr HB Ho Hm w'' Hsteps.
  pose proof (overwritten_leaked _ _ _ _ _ _ (reachable_consistent _ Hr) HB Ho Hm) as Hl.
  destruct (steps_leaked _ _ _ Hsteps Hl) as (Hn & Hnr & Hno). simpl in Hn, Hnr.
  assert (Hr'' : reachable w'').
  { unfold reachable in *. etransitivity; [done|].
    eapply rtc_l; [by apply (step_move_assign this layer)|done]. }
  destruct (reachable_heap_tracks _ Hr'') as [_ Ht]. split; [by apply Ht|].
  intros a L HL Heq. apply (Hno a (ownsOptimizer L)). simpl.
  rewrite (handles_lookup _ _ _ HL). unfold handle. by rewrite Heq.
Qed.

(** X14. Constructing a layer at a free address and destroying it at
    once leaves the layers, the matrices of the caller and the heap as
    they were: the optimizer the constructor created is released by the
    destructor, once. *)
Theorem ctor_then_dtor this n s w :
  layers w !! this = None → heap w !! next w = None →
  dtor this (ctor this n s w)
    = Some (mkWorld (layers w) (locals w) (heap w) (released w ++ [next w]) (S (next w))).
Proof.
  intros Hl Hh. unfold dtor, ctor. simpl. rewrite lookup_insert_eq. simpl.
  unfold set_layers. simpl. by rewrite !delete_insert_id by done.
Qed.
End Leaks.

Lemma overwritten_optimizer_stays_allocated_witness :
  ∃ w', move_assign 1 0 Ex.two_layers = Some w' ∧
    ∀ w'', rtc (step (Init := ZeroInitialization)) w' w'' →
      is_Some (heap w'' !! 1) ∧
      ∀ a L, layers w'' !! a = Some L → optimizer L ≠ Some 1.
Proof.
  eexists. split; [vm_compute; reflexivity|].
  apply (overwritten_optimizer_stays_allocated (Init := ZeroInitialization)
           1 0 Ex.two_layers _ Ex.B3 1);
    [apply two_layers_reachable|vm_compute; reflexivity|reflexivity|
     vm_compute; reflexivity].
Defined.

Lemma ctor_then_dtor_witness :
  dtor 0 (ctor (Init := ZeroInitialization) 0 2 2 (@init Q))
    = Some (mkWorld ∅ ∅ ∅ [0] 1).
Proof.
  apply (ctor_then_dtor (Init := ZeroInitialization) 0 2 2 (@init Q));
    vm_compute; reflexivity.
Defined.

(** ** Forward on an input of the wrong height *)

Section Builds.
Context {eT : Type} `{ElemType eT}.
Implicit Types (L : SparseBiasLayer eT) (input : Mat eT).

(** With the argument checks compiled in, [Forward_build] is [Forward]. *)
Lemma Forward_build_checked L input :
  Forward_build true L input =
    match Forward L input with
    | Ok m => Returns m
    | Throw e => Raises e
    end.
Proof. reflexivity. Qed.

(** The weights vector replicated over [n] columns, as laid out in
    memory. *)
Lemma repmat_vector_mem L n :
  weights_conform L →
  arma.mem (arma.repmat (weights L) 1 n) = concat (replicate n (arma.mem (weights L))) ∧
  length (arma.mem (arma.repmat (weights L) 1 n)) = n * outSize L.
Proof.
  intros (Hw & Hwr & Hwc). unfold arma.repmat. simpl.
  rewrite (columns_vector _ Hw Hwc). simpl. rewrite !app_nil_r. split; [done|].
  apply length_concat_replicate. unfold arma.wf in Hw. lia.
Qed.

(** C6, as the code has it.  [Forward] has no shape check and no error
    path of its own, and it never reads [outSize].  For a layer whose
    weights are the [outSize] x 1 vector and an input whose row count
    differs from [outSize], what happens is what the matrix addition does
    with operands of different shapes.  In a build with Armadillo's
    argument checks the addition raises its size error.  In a build
    without them ([ARMA_NO_DEBUG]) no error is raised: for an input with
    fewer rows than [outSize], or with no columns, [Forward] returns a
    matrix of the input's shape, the input's memory added element by
    element to the weights laid out once per column; for an input with
    more rows it reads past the end of the replicated weights.  (The
    weights being one column wide, the replicated matrix has the input's
    column count, so no size is computed that could wrap around.) *)
Theorem Forward_has_no_shape_check L input :
  weights_conform L → arma.wf input → arma.n_rows input ≠ outSize L →
  (∀ checks v, Forward_build checks (set_outSize v L) input = Forward_build checks L input) ∧
  Forward_build true L input =
    Raises (incompatible_dimensions (arma.n_rows input) (arma.n_cols input)
              (outSize L) (arma.n_cols input)) ∧
  (arma.n_cols input = 0 ∨ arma.n_rows input < outSize L →
     Forward_build false L input =
       Returns (arma.mkMat (arma.n_rows input) (arma.n_cols input)
                  (zip_with e_add (arma.mem input)
                     (concat (replicate (arma.n_cols input) (arma.mem (weights L))))))) ∧
  (arma.n_cols input ≠ 0 → outSize L < arma.n_rows input →
     Forward_build false L input = Undefined).
Proof.
  intros Hconf Hin Hne.
  destruct (repmat_vector_mem L (arma.n_cols input) Hconf) as [Hmem Hlen].
  destruct Hconf as (Hw & Hwr & Hwc). unfold arma.wf in Hin.
  split; [done|]. split; [|split].
  - unfold Forward_build, arma.plus_build, arma.plus. simpl.
    rewrite decide_False by lia. do 2 f_equal; lia.
  - intros Hsmall. unfold Forward_build, arma.plus_build.
    rewrite decide_True by (rewrite Hlen, Hin; nia). by rewrite Hmem.
  - intros Hc Hbig. unfold Forward_build, arma.plus_build.
    rewrite decide_False; [done|]. rewrite Hlen, Hin. nia.
Qed.
End Builds.

Lemma Forward_has_no_shape_check_witness :
  Forward_build true Ex.A2 Ex.x11 = Raises (incompatible_dimensions 1 1 2 1) ∧
  Forward_build false Ex.A2 Ex.x11 =
    Returns (arma.mkMat 1 1 (zip_with e_add [5%Q] (concat (replicate 1 [0%Q; 0%Q])))).
Proof.
  destruct (Forward_has_no_shape_check Ex.A2 Ex.x11) as (_ & H1 & H2 & _).
  - repeat split; reflexivity.
  - reflexivity.
  - simpl. lia.
  - split; [exact H1|]. apply H2. right. simpl. lia.
Defined.

(** C6 as stated fails: a layer constructed with two units has the 2x1
    weights its constructor made; in a build without Armadillo's argument
    checks [Forward] returns a 1x1 result for a 1-row input, and for a
    3-row input it raises nothing but reads past the end of the
    replicated weights. *)
Lemma Forward_without_checks_returns :
  ∃ L, layers (ctor (Init := ZeroInitialization) 0 2 2 (@init Q)) !! 0 = Some L ∧
    weights_conform L ∧ outSize L = 2 ∧ arma.n_rows Ex.x11 = 1 ∧
    Forward_build false L Ex.x11 = Returns (arma.mkMat 1 1 [5%Q]) ∧
    Forward_build false L Ex.x31 = Undefined.
Proof.
  exists Ex.A2. split; [vm_compute; reflexivity|].
  split; [repeat split; reflexivity|]. repeat split; vm_compute; reflexivity.
Qed.

(** C5 fails on a self-move.  A layer is constructed (which creates the
    optimizer 0), move-assigned to itself, and destroyed: no layer is
    left, nothing has been released, and the optimizer is still on the
    heap. *)
Lemma self_move_then_destroy_releases_nothing :
  ∃ w1 w2,
    transfers Ex.junk 0 [0] (ctor (Init := ZeroInitialization) 0 2 2 (@init Q))
      = Some (0, w1) ∧
    destroy_all [0] w1 = Some w2 ∧
    layers w2 = ∅ ∧ released w2 = [] ∧ heap w2 !! 0 = Some 0.
Proof.
  eexists _, _. split; [vm_compute; reflexivity|].
  split; [vm_compute; reflexivity|]. repeat split; vm_compute; reflexivity.
Qed.
